(** * Maxy Auto-FAQ: a shallow embedding of [maxy_auto_faq.py]

    The development follows the layout of the source file: text
    normalisation, the similarity measure the resolver calls
    ([difflib.SequenceMatcher.ratio]), the question/answer store (a Python
    [dict], whose iteration order is insertion order), the match resolver
    [best_faq_match], the message handler [on_message], the administrative
    commands and the JSON loader.

    Conventions.
    - A Python [str] is a [string]; one [ascii] stands for one code point
      below 256, so that [str.lower] and [str.split] are given exactly on
      that range.
    - A Python [float] score [2.0 * m / n] is the rational number it
      denotes, kept in lowest terms so that [==] on scores is [=].
    - Effects (messages sent, files touched) are explicit: every handler
      returns the new state together with what it emitted. *)

From Stdlib Require Import List String Ascii Bool Arith ZArith QArith Lia.
From Stdlib Require Import Qreduction Permutation.
Import ListNotations.

Set Implicit Arguments.
Local Open Scope string_scope.
Local Open Scope list_scope.
Local Open Scope nat_scope.

(* ================================================================== *)
(** ** Text: [normalize_text] *)
(* ================================================================== *)

Module Text.

(** [str.isspace] on the code points below 256: TAB..CR, FS..US, SPACE,
    NEL and NBSP. *)
Definition is_space (c : ascii) : bool :=
  let n := nat_of_ascii c in
  ((9 <=? n) && (n <=? 13)) || ((28 <=? n) && (n <=? 32))
  || (n =? 133) || (n =? 160).

(** [str.lower] on one code point below 256: A..Z and the Latin-1
    capitals (0xC0..0xDE without the multiplication sign 0xD7) move up
    by 32, every other code point is unchanged. *)
Definition lower_char (c : ascii) : ascii :=
  let n := nat_of_ascii c in
  if ((65 <=? n) && (n <=? 90))
     || ((192 <=? n) && (n <=? 222) && negb (n =? 215))
  then ascii_of_nat (n + 32) else c.

Definition lower (s : list ascii) : list ascii := map lower_char s.

Fixpoint lstrip (s : list ascii) : list ascii :=
  match s with
  | c :: s' => if is_space c then lstrip s' else s
  | [] => []
  end.

Definition rstrip (s : list ascii) : list ascii := rev (lstrip (rev s)).

(** [s.strip()] *)
Definition strip (s : list ascii) : list ascii := rstrip (lstrip s).

(** [s.split()] with no separator: the maximal runs of non-space
    characters, in order.  [word] is the run being read, reversed. *)
Fixpoint split_from (s word : list ascii) : list (list ascii) :=
  match s with
  | [] => match word with [] => [] | _ => [rev word] end
  | c :: s' =>
      if is_space c
      then match word with
           | [] => split_from s' []
           | _ => rev word :: split_from s' []
           end
      else split_from s' (c :: word)
  end.

Definition split (s : list ascii) : list (list ascii) := split_from s [].

(** [" ".join(words)] *)
Fixpoint join_space (words : list (list ascii)) : list ascii :=
  match words with
  | [] => []
  | [w] => w
  | w :: ws => w ++ " "%char :: join_space ws
  end.

(** [normalize_text(s)] is [" ".join(s.lower().strip().split())]. *)
Definition normalize_chars (s : list ascii) : list ascii :=
  join_space (split (strip (lower s))).

Definition normalize_text (s : string) : string :=
  string_of_list_ascii (normalize_chars (list_ascii_of_string s)).

End Text.

(* ================================================================== *)
(** ** The similarity measure: [difflib.SequenceMatcher(None, a, b).ratio()] *)
(* ================================================================== *)

(** Modelled from the spec: the scorer is [SequenceMatcher] of Python's
    standard [difflib], which [best_faq_match] calls and which is not part
    of the repository's sources.  The spec describes it as
    [score = 2*M / T], with [T] the combined length and [M] the total
    length of the matching blocks found by a recursive
    longest-common-substring procedure (the classic "ratio").  The
    definitions below spell that procedure out the way [difflib] runs it
    for [isjunk = None] and the default [autojunk = True]: [chain_b],
    [find_longest_match], [get_matching_blocks], [ratio]. *)

Module Difflib.

(** A matching block [Match(a, b, size)]: [a[a:a+size] == b[b:b+size]]. *)
Record Match : Type := mkMatch { m_a : nat; m_b : nat; m_size : nat }.

(** *** [__chain_b]: the index [b2j] of the second sequence *)

(** [b2j] maps each element of [b] to the increasing list of the positions
    where it occurs; a dict, kept as an association list in the order the
    keys were first seen. *)
Definition b2j_t : Type := list (ascii * list nat).

(** [b2j.setdefault(elt, []).append(i)] *)
Fixpoint setdefault_append (b2j : b2j_t) (elt : ascii) (i : nat) : b2j_t :=
  match b2j with
  | [] => [(elt, [i])]
  | (k, idxs) :: rest =>
      if Ascii.eqb k elt then (k, idxs ++ [i]) :: rest
      else (k, idxs) :: setdefault_append rest elt i
  end.

(** [for i, elt in enumerate(b): ...], started at index [i]. *)
Fixpoint chain_loop (b : list ascii) (i : nat) (b2j : b2j_t) : b2j_t :=
  match b with
  | [] => b2j
  | elt :: b' => chain_loop b' (S i) (setdefault_append b2j elt i)
  end.

(** The purge of popular elements: with [n = len(b) >= 200], every element
    occurring more than [n // 100 + 1] times is deleted from [b2j].
    ([isjunk] is [None], so the junk set stays empty.) *)
Definition purge_popular (n : nat) (b2j : b2j_t) : b2j_t :=
  if 200 <=? n
  then let ntest := n / 100 + 1 in
       filter (fun kv => negb (ntest <? List.length (snd kv))) b2j
  else b2j.

Definition chain_b (b : list ascii) : b2j_t :=
  purge_popular (List.length b) (chain_loop b 0 []).

(** [b2j.get(x, nothing)] with [nothing = []]. *)
Fixpoint b2j_get (b2j : b2j_t) (x : ascii) : list nat :=
  match b2j with
  | [] => []
  | (k, idxs) :: rest => if Ascii.eqb k x then idxs else b2j_get rest x
  end.

(** [self.bjunk.__contains__]: the junk set is empty. *)
Definition isbjunk (_ : ascii) : bool := false.

(** *** [find_longest_match] *)

(** [j2len]: a dict from positions of [b] to lengths, rebuilt for each row
    [i]; the entry added last is at the head. *)
Definition j2len_t : Type := list (nat * nat).

Fixpoint j2len_lookup (j2len : j2len_t) (j : nat) : nat :=
  match j2len with
  | [] => 0
  | (j', k) :: rest => if j' =? j then k else j2len_lookup rest j
  end.

(** [j2len.get(j-1, 0)]: for [j = 0] the key is [-1], never present. *)
Definition j2lenget_pred (j2len : j2len_t) (j : nat) : nat :=
  match j with
  | 0 => 0
  | S j' => j2len_lookup j2len j'
  end.

(** The inner loop [for j in b2j.get(a[i], nothing)] of row [i]:
    [continue] below [blo], [break] from [bhi] on, otherwise record
    [k = j2len.get(j-1, 0) + 1] and move the best match when [k] is
    strictly larger.  [i - k + 1] is written [i + 1 - k]: [k <= i + 1]. *)
Fixpoint row_loop (i blo bhi : nat) (j2len : j2len_t) (js : list nat)
    (newj2len : j2len_t) (best : Match) : j2len_t * Match :=
  match js with
  | [] => (newj2len, best)
  | j :: js' =>
      if j <? blo then row_loop i blo bhi j2len js' newj2len best
      else if bhi <=? j then (newj2len, best)
      else
        let k := j2lenget_pred j2len j + 1 in
        let newj2len' := (j, k) :: newj2len in
        let best' := if m_size best <? k
                     then mkMatch (i + 1 - k) (j + 1 - k) k
                     else best in
        row_loop i blo bhi j2len js' newj2len' best'
  end.

(** The outer loop [for i in range(alo, ahi)], over the rows [is]. *)
Fixpoint scan_rows (a : list ascii) (b2j : b2j_t) (blo bhi : nat)
    (rows : list nat) (j2len : j2len_t) (best : Match) : Match :=
  match rows with
  | [] => best
  | i :: rows' =>
      let js := match nth_error a i with
                | Some x => b2j_get b2j x
                | None => []
                end in
      let '(newj2len, best') := row_loop i blo bhi j2len js [] best in
      scan_rows a b2j blo bhi rows' newj2len best'
  end.

(** [a[i] == b[j]] for positions inside both sequences, guarded by
    [keep(b[j])]. *)
Definition same_at (keep : ascii -> bool) (a b : list ascii) (i j : nat)
  : bool :=
  match nth_error a i, nth_error b j with
  | Some x, Some y => keep y && Ascii.eqb x y
  | _, _ => false
  end.

(** [while besti > alo and bestj > blo and keep(b[bestj-1]) and
    a[besti-1] == b[bestj-1]: besti, bestj, bestsize =
    besti-1, bestj-1, bestsize+1] *)
Fixpoint extend_left (keep : ascii -> bool) (a b : list ascii)
    (alo blo besti bestj bestsize : nat) : Match :=
  match besti, bestj with
  | S i', S j' =>
      if (alo <? besti) && (blo <? bestj) && same_at keep a b i' j'
      then extend_left keep a b alo blo i' j' (S bestsize)
      else mkMatch besti bestj bestsize
  | _, _ => mkMatch besti bestj bestsize
  end.

(** [while besti+bestsize < ahi and bestj+bestsize < bhi and
    keep(b[bestj+bestsize]) and a[besti+bestsize] == b[bestj+bestsize]:
    bestsize += 1].  The loop runs at most [ahi - (besti+bestsize)]
    times, which is the [fuel] it is given. *)
Fixpoint extend_right (keep : ascii -> bool) (a b : list ascii)
    (ahi bhi besti bestj bestsize fuel : nat) : nat :=
  match fuel with
  | 0 => bestsize
  | S fuel' =>
      if (besti + bestsize <? ahi) && (bestj + bestsize <? bhi)
         && same_at keep a b (besti + bestsize) (bestj + bestsize)
      then extend_right keep a b ahi bhi besti bestj (S bestsize) fuel'
      else bestsize
  end.

(** Both extension loops for one guard. *)
Definition extend (keep : ascii -> bool) (a b : list ascii)
    (alo ahi blo bhi : nat) (m : Match) : Match :=
  let m1 := extend_left keep a b alo blo (m_a m) (m_b m) (m_size m) in
  let size := extend_right keep a b ahi bhi (m_a m1) (m_b m1) (m_size m1)
                (ahi - (m_a m1 + m_size m1)) in
  mkMatch (m_a m1) (m_b m1) size.

Definition find_longest_match (a b : list ascii) (b2j : b2j_t)
    (alo ahi blo bhi : nat) : Match :=
  let best := scan_rows a b2j blo bhi (seq alo (ahi - alo)) []
                (mkMatch alo blo 0) in
  (* extend by non-junk elements on each end *)
  let best := extend (fun y => negb (isbjunk y)) a b alo ahi blo bhi best in
  (* then by junk elements on each end *)
  extend isbjunk a b alo ahi blo bhi best.

(** *** [get_matching_blocks] *)

Definition range_t : Type := (nat * nat * nat * nat)%type.

(** [while queue: alo, ahi, blo, bhi = queue.pop(); ...].  The queue is a
    stack whose top is the head of the list; [append] pushes.  Each turn
    of the loop uses one unit of [fuel]. *)
Fixpoint blocks_loop (a b : list ascii) (b2j : b2j_t) (fuel : nat)
    (queue : list range_t) (matching_blocks : list Match) : list Match :=
  match fuel with
  | 0 => matching_blocks
  | S fuel' =>
      match queue with
      | [] => matching_blocks
      | (alo, ahi, blo, bhi) :: queue' =>
          let x := find_longest_match a b b2j alo ahi blo bhi in
          let i := m_a x in
          let j := m_b x in
          let k := m_size x in
          if k =? 0 then blocks_loop a b b2j fuel' queue' matching_blocks
          else
            let q1 := if (alo <? i) && (blo <? j)
                      then (alo, i, blo, j) :: queue' else queue' in
            let q2 := if (i + k <? ahi) && (j + k <? bhi)
                      then (i + k, ahi, j + k, bhi) :: q1 else q1 in
            blocks_loop a b b2j fuel' q2 (matching_blocks ++ [x])
      end
  end.

(** Tuple order on [Match], as [list.sort] uses it. *)
Definition match_leb (x y : Match) : bool :=
  (m_a x <? m_a y)
  || ((m_a x =? m_a y)
      && ((m_b x <? m_b y)
          || ((m_b x =? m_b y) && (m_size x <=? m_size y)))).

Fixpoint insert_sorted (x : Match) (l : list Match) : list Match :=
  match l with
  | [] => [x]
  | y :: l' => if match_leb x y then x :: l else y :: insert_sorted x l'
  end.

(** [matching_blocks.sort()] *)
Definition sort_blocks (l : list Match) : list Match :=
  fold_right insert_sorted [] l.

(** The loop that merges adjacent blocks: [cur] is [(i1, j1, k1)]. *)
Fixpoint collapse_loop (blocks : list Match) (cur : Match)
    (non_adjacent : list Match) : list Match * Match :=
  match blocks with
  | [] => (non_adjacent, cur)
  | x :: blocks' =>
      if (m_a cur + m_size cur =? m_a x) && (m_b cur + m_size cur =? m_b x)
      then collapse_loop blocks'
             (mkMatch (m_a cur) (m_b cur) (m_size cur + m_size x))
             non_adjacent
      else collapse_loop blocks' x
             (if m_size cur =? 0 then non_adjacent
              else non_adjacent ++ [cur])
  end.

(** [get_matching_blocks]: the loop is entered with the whole of both
    sequences on the queue; the blocks are sorted, adjacent ones merged,
    and the sentinel [(la, lb, 0)] is appended.  A turn of the loop that
    finds a block removes at least one element of [a] from the ranges
    still queued, so [2 * la + 1] turns empty the queue
    (see [blocks_loop_fuel]). *)
Definition get_matching_blocks (a b : list ascii) : list Match :=
  let la := List.length a in
  let lb := List.length b in
  let raw := blocks_loop a b (chain_b b) (2 * la + 1) [(0, la, 0, lb)] [] in
  let '(non_adjacent, cur) :=
    collapse_loop (sort_blocks raw) (mkMatch 0 0 0) [] in
  let non_adjacent :=
    if m_size cur =? 0 then non_adjacent else non_adjacent ++ [cur] in
  non_adjacent ++ [mkMatch la lb 0].

(** [_calculate_ratio(matches, length)]:
    [2.0 * matches / length] if [length] else [1.0]. *)
Definition calculate_ratio (matches length : nat) : Q :=
  if length =? 0 then 1%Q
  else Qred (Z.of_nat (2 * matches) # Pos.of_nat length).

(** [SequenceMatcher(None, a, b).ratio()] *)
Definition ratio_chars (a b : list ascii) : Q :=
  let matches := list_sum (map m_size (get_matching_blocks a b)) in
  calculate_ratio matches (List.length a + List.length b).

Definition ratio (a b : string) : Q :=
  ratio_chars (list_ascii_of_string a) (list_ascii_of_string b).

End Difflib.

(* ================================================================== *)
(** ** Python values shared by the handlers *)
(* ================================================================== *)

Module Py.

(** The exceptions the source raises or catches. *)
Inductive exn : Type :=
| KeyError (key : string)
| FileNotFoundError
| IsADirectoryError
| JSONDecodeError
| UnicodeDecodeError
| RecursionError.

(** The outcome of a call: a value, or an exception that propagates. *)
Inductive result (A : Type) : Type :=
| Ok (x : A)
| Raise (e : exn).

Arguments Ok {A} x.
Arguments Raise {A} e.

Definition bind {A B : Type} (r : result A) (f : A -> result B) : result B :=
  match r with
  | Ok x => f x
  | Raise e => Raise e
  end.

(** Truth value of a [str]: the empty string is false. *)
Definition truthy (s : string) : bool :=
  match s with
  | EmptyString => false
  | String _ _ => true
  end.

(** Truth value of an optional [str]: [None] and [""] are false. *)
Definition truthy_opt (s : option string) : bool :=
  match s with
  | Some s' => truthy s'
  | None => false
  end.

(** [x > y] and [x >= y] on scores. *)
Definition gtb (x y : Q) : bool := negb (Qle_bool x y).
Definition geb (x y : Q) : bool := Qle_bool y x.

End Py.

Notation "x <- r ;; k" := (Py.bind r (fun x => k))
  (at level 61, r at next level, right associativity).

(* ================================================================== *)
(** ** The store: a [dict] from question to answer *)
(* ================================================================== *)

Module Dict.

(** Entries are kept in insertion order, which is the order in which
    Python iterates over a dict. *)
Definition t : Type := list (string * string).

(** [k in d] *)
Fixpoint contains (d : t) (k : string) : bool :=
  match d with
  | [] => false
  | (k', _) :: d' => if String.eqb k' k then true else contains d' k
  end.

(** [d[k]], [None] standing for [KeyError]. *)
Fixpoint get (d : t) (k : string) : option string :=
  match d with
  | [] => None
  | (k', v) :: d' => if String.eqb k' k then Some v else get d' k
  end.

(** [d[k] = v]: an existing key keeps its place, a new one goes last. *)
Fixpoint setitem (d : t) (k v : string) : t :=
  match d with
  | [] => [(k, v)]
  | (k', v') :: d' =>
      if String.eqb k' k then (k', v) :: d' else (k', v') :: setitem d' k v
  end.

(** [del d[k]] *)
Fixpoint delitem (d : t) (k : string) : t :=
  match d with
  | [] => []
  | (k', v') :: d' =>
      if String.eqb k' k then d' else (k', v') :: delitem d' k
  end.

(** [d.keys()], in iteration order. *)
Definition keys (d : t) : list string := map fst d.

(** A dict holds each key once. *)
Definition wf (d : t) : Prop := NoDup (keys d).

End Dict.

(* ================================================================== *)
(** ** The bot: resolver, message handler, commands *)
(* ================================================================== *)

Module Bot.

Definition DEFAULT_SIMILARITY_THRESHOLD : Q := 3 # 5.

Definition FALLBACK_MESSAGES : list string :=
  [ "Hmm, I don’t have an answer for that yet. Could you try rephrasing?";
    "I’m not sure about that — maybe check `/faq list` or ask a staff member.";
    "That one’s new to me 👀 — want me to tell the team to add this question?";
    "I couldn’t find anything on that, sorry! You can open a ticket or ask staff." ].

(** [config]: a dict with the keys ["faq_channels"] and ["threshold"],
    either of which a loaded document may lack. *)
Record Config : Type := mkConfig {
  faq_channels : option (list Z);
  threshold : option Q
}.

(** The two module-level stores. *)
Record State : Type := mkState {
  faqs : Dict.t;
  config : Config
}.

(** [config.get("faq_channels", [])] *)
Definition get_faq_channels (c : Config) : list Z :=
  match faq_channels c with
  | Some l => l
  | None => []
  end.

(** [config.get("threshold", DEFAULT_SIMILARITY_THRESHOLD)] *)
Definition get_threshold (c : Config) : Q :=
  match threshold c with
  | Some t => t
  | None => DEFAULT_SIMILARITY_THRESHOLD
  end.

(** *** [best_faq_match] *)

(** The score of one stored key against a normalised message:
    [SequenceMatcher(None, msg_norm, normalize_text(key)).ratio()]. *)
Definition score (msg_norm key : string) : Q :=
  Difflib.ratio msg_norm (Text.normalize_text key).

(** [for key in faqs.keys(): ...], carrying [(best_key, best_score)]. *)
Fixpoint scan_keys (msg_norm : string) (keys : list string)
    (best_key : option string) (best_score : Q) : option string * Q :=
  match keys with
  | [] => (best_key, best_score)
  | key :: keys' =>
      let s := score msg_norm key in
      if Py.gtb s best_score
      then scan_keys msg_norm keys' (Some key) s
      else scan_keys msg_norm keys' best_key best_score
  end.

(** The triple [(key, answer, score)] the resolver returns. *)
Definition outcome : Type := (option string * option string * Q)%type.

Definition best_faq_match (st : State) (message : string)
  : Py.result outcome :=
  let msg_norm := Text.normalize_text message in
  let '(best_key, best_score) :=
    scan_keys msg_norm (Dict.keys (faqs st)) None 0 in
  let threshold := get_threshold (config st) in
  match best_key with
  | Some key =>
      if Py.geb best_score threshold
      then match Dict.get (faqs st) key with
           | Some answer => Py.Ok (Some key, Some answer, best_score)
           | None => Py.Raise (Py.KeyError key)
           end
      else Py.Ok (None, None, best_score)
  | None => Py.Ok (None, None, best_score)
  end.

(** *** Callers *)

(** What the handlers read of a [discord.User] / [discord.Member]:
    [is_member] says the object is a [discord.Member] of a guild, the only
    case in which [guild_permissions] can be read. *)
Record User : Type := mkUser {
  user_id : Z;
  user_bot : bool;
  is_member : bool;
  administrator : bool
}.

Section Owner.

(** [OWNER_ID], read from the environment when the module is loaded. *)
Variable OWNER_ID : Z.

(** [is_admin_or_owner(member)]; reading [guild_permissions] of an object
    that is not a guild member raises, which the function turns into
    [False]. *)
Definition is_admin_or_owner (member : option User) : bool :=
  match member with
  | None => false
  | Some m =>
      if (user_id m =? OWNER_ID)%Z then true
      else if is_member m then administrator m else false
  end.

(** [admin_check(interaction)], on [interaction.user]. *)
Definition admin_check (user : User) : bool :=
  if (user_id user =? OWNER_ID)%Z then true
  else if is_member user then administrator user
  else false.

(** *** [on_message] *)

Record Message : Type := mkMessage {
  author : User;
  in_guild : bool;          (* [message.guild is not None] *)
  channel_id : Z;
  content : string
}.

(** What the surroundings decide for one call of the handler: whether
    [message.reply] raises [discord.Forbidden], and the index
    [random.choice] draws. *)
Record World : Type := mkWorld {
  reply_forbidden : bool;
  choice : nat
}.

(** The calls the handler makes on the transport. *)
Inductive Action : Type :=
| Reply (text : string)         (* [message.reply(text, ...)] *)
| ChannelSend (text : string)   (* [message.channel.send(text)] *)
| ProcessCommands.              (* [bot.process_commands(message)] *)

(** [random.choice(FALLBACK_MESSAGES)] *)
Definition random_choice (w : World) : string :=
  nth (choice w mod List.length FALLBACK_MESSAGES) FALLBACK_MESSAGES "".

(** [try: message.reply(text) except discord.Forbidden:
    message.channel.send(text)]; a refused reply is followed by a send. *)
Definition reply_or_send (w : World) (text : string) : list Action :=
  if reply_forbidden w then [Reply text; ChannelSend text]
  else [Reply text].

(** [message.content or ""] *)
Definition content_or_empty (m : Message) : string :=
  if Py.truthy (content m) then content m else "".

Definition on_message (st : State) (w : World) (m : Message)
  : Py.result (list Action) :=
  if user_bot (author m) then Py.Ok []
  else if negb (in_guild m) then Py.Ok []
  else
    let guild_cfg_channels := get_faq_channels (config st) in
    match guild_cfg_channels with
    | [] => Py.Ok [ProcessCommands]
    | _ :: _ =>
        if negb (existsb (Z.eqb (channel_id m)) guild_cfg_channels)
        then Py.Ok [ProcessCommands]
        else
          r <- best_faq_match st (content_or_empty m) ;;
          let '(key, answer, _) := r in
          if Py.truthy_opt key
          then Py.Ok (reply_or_send w
                        (match answer with Some t => t | None => "" end))
          else Py.Ok (reply_or_send w (random_choice w))
    end.

(** *** Commands *)

(** The fixed texts the commands answer with. *)
Inductive Response : Type :=
| NoPermission                  (* "You don't have permission ..." *)
| AlreadyExists                 (* "That FAQ already exists. ..." *)
| FaqAdded (question : string)  (* "FAQ added for: {question}" *)
| Removed (key : string)        (* "Removed FAQ: {key}" *)
| NotFound                      (* "Could not find that FAQ." *)
| ThresholdInvalid              (* "Threshold must be between 0.0 and 1.0" *)
| ThresholdSet (value : Q).     (* "Set FAQ similarity threshold to ..." *)

(** What a command does besides changing the stores. *)
Inductive Effect : Type :=
| SaveFaqs (data : Dict.t)      (* [save_json(FAQ_FILE, faqs)] *)
| SaveConfig (data : Config)    (* [save_json(CONFIG_FILE, config)] *)
| Send (r : Response)           (* [send_message] / [ctx.reply] *)
| CheckFailure.                 (* the command's check refused the caller *)

Definition with_faqs (st : State) (d : Dict.t) : State :=
  mkState d (config st).

(** Slash command [/faq_add]. *)
Definition faq_add (st : State) (user : User) (question answer : string)
  : State * list Effect :=
  if negb (admin_check user) then (st, [Send NoPermission])
  else
    let key := Text.normalize_text question in
    if Dict.contains (faqs st) key then (st, [Send AlreadyExists])
    else
      let faqs' := Dict.setitem (faqs st) question answer in
      (with_faqs st faqs', [SaveFaqs faqs'; Send (FaqAdded question)]).

(** [for k in list(faqs.keys()): if normalize_text(k) ==
    normalize_text(question): found = k; break] *)
Fixpoint find_normalized (keys : list string) (question : string)
  : option string :=
  match keys with
  | [] => None
  | k :: keys' =>
      if String.eqb (Text.normalize_text k) (Text.normalize_text question)
      then Some k
      else find_normalized keys' question
  end.

(** The body shared, line for line, by [/faq_remove] and [!faq_remove]. *)
Definition remove_body (st : State) (question : string)
  : State * list Effect :=
  if Dict.contains (faqs st) question
  then
    let faqs' := Dict.delitem (faqs st) question in
    (with_faqs st faqs', [SaveFaqs faqs'; Send (Removed question)])
  else
    let found := find_normalized (Dict.keys (faqs st)) question in
    match found with
    | Some k =>
        if Py.truthy k                      (* [if found:] *)
        then
          let faqs' := Dict.delitem (faqs st) k in
          (with_faqs st faqs', [SaveFaqs faqs'; Send (Removed k)])
        else (st, [Send NotFound])
    | None => (st, [Send NotFound])
    end.

(** Slash command [/faq_remove]. *)
Definition faq_remove (st : State) (user : User) (question : string)
  : State * list Effect :=
  if negb (admin_check user) then (st, [Send NoPermission])
  else remove_body st question.

(** Slash command [/set_threshold]. *)
Definition set_threshold (st : State) (user : User) (value : Q)
  : State * list Effect :=
  if negb (admin_check user) then (st, [Send NoPermission])
  else if negb (Qle_bool 0 value && Qle_bool value 1)
  then (st, [Send ThresholdInvalid])
  else
    let config' := mkConfig (faq_channels (config st)) (Some value) in
    (mkState (faqs st) config',
     [SaveConfig config'; Send (ThresholdSet value)]).

End Owner.

(** The caller of a prefix command, as the decorator
    [check_any(is_owner(), has_guild_permissions(administrator=True))]
    sees it. *)
Record Context : Type := mkContext {
  ctx_is_owner : bool;
  ctx_guild_administrator : bool
}.

Definition check_any (ctx : Context) : bool :=
  ctx_is_owner ctx || ctx_guild_administrator ctx.

(** Prefix command [!faq_add]. *)
Definition prefix_faq_add (st : State) (ctx : Context)
    (question answer : string) : State * list Effect :=
  if negb (check_any ctx) then (st, [CheckFailure])
  else if Dict.contains (faqs st) question then (st, [Send AlreadyExists])
  else
    let faqs' := Dict.setitem (faqs st) question answer in
    (with_faqs st faqs', [SaveFaqs faqs'; Send (FaqAdded question)]).

(** Prefix command [!faq_remove]. *)
Definition prefix_faq_remove (st : State) (ctx : Context)
    (question : string) : State * list Effect :=
  if negb (check_any ctx) then (st, [CheckFailure])
  else remove_body st question.

End Bot.

(* ================================================================== *)
(** ** Storage: [load_json] *)
(* ================================================================== *)

Module Storage.

(** What a path names: a regular file with its bytes, or a directory. *)
Inductive node : Type :=
| File (data : string)
| Dir.

(** The file system, as far as [load_json] looks at it. *)
Definition fs : Type := string -> option node.

Definition update (f : fs) (path : string) (n : option node) : fs :=
  fun p => if String.eqb p path then n else f p.

(** [os.rename(src, dst)] for a regular file [src], as on POSIX: a
    missing source and a directory in the way raise; otherwise [dst] is
    replaced. *)
Definition os_rename (f : fs) (src dst : string) : Py.result fs :=
  match f src with
  | None => Py.Raise Py.FileNotFoundError
  | Some n =>
      match f dst with
      | Some Dir => Py.Raise Py.IsADirectoryError
      | _ => Py.Ok (update (update f dst (Some n)) src None)
      end
  end.

(** [open(path, "r", encoding="utf-8")]: a missing path and a directory
    raise; otherwise the file object is there, given here by the bytes it
    will read.  Nothing is decoded yet: that happens when [json.load]
    reads the file. *)
Definition open_read (f : fs) (path : string) : Py.result string :=
  match f path with
  | None => Py.Raise Py.FileNotFoundError
  | Some Dir => Py.Raise Py.IsADirectoryError
  | Some (File data) => Py.Ok data
  end.

Section Loader.

(** The documents [json] produces, and what [json.load] does with a file
    of given bytes that was opened as UTF-8 text: it returns the document,
    or it raises, [UnicodeDecodeError] when the bytes are not UTF-8,
    [json.JSONDecodeError] when the text is not JSON, [RecursionError]
    when the text nests too deep. *)
Variable J : Type.
Variable json_read : string -> Py.result J.

(** [with open(path, "r", encoding="utf-8") as f: return json.load(f)] *)
Definition json_load (f : fs) (path : string) : Py.result J :=
  data <- open_read f path ;;
  json_read data.

(** [load_json(path, default)], with the file system it leaves.  Only
    [FileNotFoundError] and [json.JSONDecodeError] are caught; any other
    exception leaves the function. *)
Definition load_json (f : fs) (path : string) (default : J)
  : Py.result J * fs :=
  match json_load f path with
  | Py.Ok v => (Py.Ok v, f)
  | Py.Raise Py.FileNotFoundError => (Py.Ok default, f)
  | Py.Raise Py.JSONDecodeError =>
      (* try: os.rename(path, path + ".bak") except Exception: pass *)
      match os_rename f path (path ++ ".bak") with
      | Py.Ok f' => (Py.Ok default, f')
      | Py.Raise _ => (Py.Ok default, f)
      end
  | Py.Raise e => (Py.Raise e, f)
  end.

End Loader.

End Storage.

(* ================================================================== *)
(** ** The other commands: channels, listing, viewing *)
(* ================================================================== *)

Module Commands.

(** What these commands answer. *)
Inductive Answer : Type :=
| Refused                       (* "You don't have permission ..." *)
| ChannelAlready                (* "That channel is already configured." *)
| ChannelAdded (channel : Z)    (* "Added {channel.mention} to ..." *)
| ChannelUnknown                (* "That channel isn't configured." *)
| ChannelRemoved (channel : Z)  (* "Removed {channel.mention} from ..." *)
| NoFaqs                        (* "No FAQs have been added yet." *)
| Listing (text : string)       (* the text "FAQs:" and the [display] *)
| ListingIsLong                 (* "FAQ list is long ..." *)
| Exact (answer : string)       (* the stored answer, as it is *)
| Closest (score : Q) (key answer : string)
                                (* "Closest match ({score:.2f}): ..." *)
| NoMatch.                      (* "No matching FAQ found." *)

(** What these commands do, in the order in which they do it. *)
Inductive Event : Type :=
| Save (data : Bot.Config)          (* [save_json(CONFIG_FILE, config)] *)
| Say (a : Answer)                  (* [send_message] / [reply] / [send] *)
| SayWithExport (a : Answer)        (* [send_message(..., file=File(...))] *)
| WriteExport (text : string)       (* [f.write(display)] *)
| SendExport                        (* [ctx.send(file=File(...))] *)
| RemoveExport.                     (* [os.remove("faqs_export.txt")] *)

Definition with_channels (st : Bot.State) (l : list Z) : Bot.State :=
  Bot.mkState (Bot.faqs st)
    (Bot.mkConfig (Some l) (Bot.threshold (Bot.config st))).

(** [x in l] for channel ids. *)
Definition mem (x : Z) (l : list Z) : bool := existsb (Z.eqb x) l.

(** [l.remove(x)]: the first occurrence goes. *)
Fixpoint remove_first (x : Z) (l : list Z) : list Z :=
  match l with
  | [] => []
  | y :: l' => if (y =? x)%Z then l' else y :: remove_first x l'
  end.

Section Owner.

Variable OWNER_ID : Z.

(** Slash command [/set_faq_channel]. *)
Definition set_faq_channel (st : Bot.State) (user : Bot.User) (channel : Z)
  : Bot.State * list Event :=
  if negb (Bot.admin_check OWNER_ID user) then (st, [Say Refused])
  else
    let cfg_channels := Bot.get_faq_channels (Bot.config st) in
    if mem channel cfg_channels then (st, [Say ChannelAlready])
    else
      let st' := with_channels st (cfg_channels ++ [channel]) in
      (st', [Save (Bot.config st'); Say (ChannelAdded channel)]).

(** Slash command [/disable_faq_channel]. *)
Definition disable_faq_channel (st : Bot.State) (user : Bot.User)
    (channel : Z) : Bot.State * list Event :=
  if negb (Bot.admin_check OWNER_ID user) then (st, [Say Refused])
  else
    let cfg_channels := Bot.get_faq_channels (Bot.config st) in
    if negb (mem channel cfg_channels) then (st, [Say ChannelUnknown])
    else
      let st' := with_channels st (remove_first channel cfg_channels) in
      (st', [Save (Bot.config st'); Say (ChannelRemoved channel)]).

End Owner.

Definition newline : string := String (ascii_of_nat 10) "".

(** ["\n".join(lines)] *)
Fixpoint join_lines (lines : list string) : string :=
  match lines with
  | [] => ""
  | [l] => l
  | l :: ls => (l ++ newline ++ join_lines ls)%string
  end.

(** [display = "\n".join(f"- {k}" for k in keys)] *)
Definition display (keys : list string) : string :=
  join_lines (map (fun k => ("- " ++ k)%string) keys).

(** [len(display) > 1900] *)
Definition too_long (text : string) : bool := 1900 <? String.length text.

(** Slash command [/faq_list]; the caller is looked at and let through
    either way. *)
Definition faq_list (OWNER_ID : Z) (st : Bot.State) (user : Bot.User)
  : list Event :=
  let _ := if negb (Bot.admin_check OWNER_ID user) then tt else tt in
  match Bot.faqs st with
  | [] => [Say NoFaqs]
  | _ :: _ =>
      let text := display (Dict.keys (Bot.faqs st)) in
      if too_long text
      then [WriteExport text; SayWithExport ListingIsLong; RemoveExport]
      else [Say (Listing text)]
  end.

(** Prefix command [!faq_list]. *)
Definition prefix_faq_list (st : Bot.State) : list Event :=
  match Bot.faqs st with
  | [] => [Say NoFaqs]
  | _ :: _ =>
      let text := display (Dict.keys (Bot.faqs st)) in
      if too_long text
      then [Say ListingIsLong; WriteExport text; SendExport; RemoveExport]
      else [Say (Listing text)]
  end.

(** The body shared, line for line, by [/faq_view] and [!faq_view]:
    the exact key first, the resolver otherwise. *)
Definition faq_view (st : Bot.State) (question : string)
  : Py.result (list Event) :=
  if Dict.contains (Bot.faqs st) question
  then match Dict.get (Bot.faqs st) question with
       | Some answer => Py.Ok [Say (Exact answer)]
       | None => Py.Raise (Py.KeyError question)
       end
  else
    r <- Bot.best_faq_match st question ;;
    let '(best_key, best_answer, score) := r in
    if Py.truthy_opt best_key
    then Py.Ok [Say (Closest score
                       (match best_key with Some k => k | None => "" end)
                       (match best_answer with Some a => a | None => "" end))]
    else Py.Ok [Say NoMatch].

Definition prefix_faq_view (st : Bot.State) (question : string)
  : Py.result (list Event) := faq_view st question.

End Commands.

(* ================================================================== *)
(** ** Storage: [save_json] *)
(* ================================================================== *)

Module Saving.

Section Dumper.

(** The documents, and the bytes [json.dump] writes for one through a
    file opened as UTF-8 text. *)
Variable J : Type.
Variable json_dumps : J -> string.

(** [save_json(path, data)]: [open(path, "w")] refuses a directory and
    otherwise leaves a file holding the bytes written for [data]. *)
Definition save_json (f : Storage.fs) (path : string) (data : J)
  : Py.result unit * Storage.fs :=
  match f path with
  | Some Storage.Dir => (Py.Raise Py.IsADirectoryError, f)
  | _ =>
      (Py.Ok tt,
       Storage.update f path (Some (Storage.File (json_dumps data))))
  end.

End Dumper.

End Saving.

(* ================================================================== *)
(** ** The commands that change the stores, as one transition *)
(* ================================================================== *)

Module Session.

(** One administrative command with its caller and arguments. *)
Inductive Command : Type :=
| FaqAdd (user : Bot.User) (question answer : string)
| FaqRemove (user : Bot.User) (question : string)
| PrefixFaqAdd (ctx : Bot.Context) (question answer : string)
| PrefixFaqRemove (ctx : Bot.Context) (question : string)
| SetFaqChannel (user : Bot.User) (channel : Z)
| DisableFaqChannel (user : Bot.User) (channel : Z)
| SetThreshold (user : Bot.User) (value : Q).

(** What was written to disk by a command: the two documents. *)
Inductive Written : Type :=
| WroteFaqs (data : Dict.t)
| WroteConfig (data : Bot.Config).

Definition written_of_effect (e : Bot.Effect) : list Written :=
  match e with
  | Bot.SaveFaqs d => [WroteFaqs d]
  | Bot.SaveConfig c => [WroteConfig c]
  | _ => []
  end.

Definition written_of_event (e : Commands.Event) : list Written :=
  match e with
  | Commands.Save c => [WroteConfig c]
  | _ => []
  end.

(** The state after a command and the documents it saved, in order. *)
Definition step (OWNER_ID : Z) (st : Bot.State) (c : Command)
  : Bot.State * list Written :=
  match c with
  | FaqAdd u q a =>
      let '(st', es) := Bot.faq_add OWNER_ID st u q a in
      (st', flat_map written_of_effect es)
  | FaqRemove u q =>
      let '(st', es) := Bot.faq_remove OWNER_ID st u q in
      (st', flat_map written_of_effect es)
  | PrefixFaqAdd ctx q a =>
      let '(st', es) := Bot.prefix_faq_add st ctx q a in
      (st', flat_map written_of_effect es)
  | PrefixFaqRemove ctx q =>
      let '(st', es) := Bot.prefix_faq_remove st ctx q in
      (st', flat_map written_of_effect es)
  | SetFaqChannel u ch =>
      let '(st', es) := Commands.set_faq_channel OWNER_ID st u ch in
      (st', flat_map written_of_event es)
  | DisableFaqChannel u ch =>
      let '(st', es) := Commands.disable_faq_channel OWNER_ID st u ch in
      (st', flat_map written_of_event es)
  | SetThreshold u v =>
      let '(st', es) := Bot.set_threshold OWNER_ID st u v in
      (st', flat_map written_of_effect es)
  end.

(** A sequence of commands, one after the other. *)
Fixpoint steps (OWNER_ID : Z) (st : Bot.State) (cs : list Command)
  : Bot.State :=
  match cs with
  | [] => st
  | c :: cs' => steps OWNER_ID (fst (step OWNER_ID st c)) cs'
  end.

End Session.

(* ================================================================== *)
(** ** Vocabulary of the properties *)
(* ================================================================== *)

(** *** The store and the resolver *)

(** The range [0.0 <= value <= 1.0]. *)
Definition in_unit_interval (value : Q) : Prop := (0 <= value /\ value <= 1)%Q.

(** [key] is the first key of [keys] with the largest score:
    every key before it scores strictly less, every key after it scores
    at most as much. *)
Definition first_maximal (msg_norm : string) (keys : list string)
    (key : string) : Prop :=
  exists before after,
    keys = before ++ key :: after
    /\ (forall x, In x before ->
          (Bot.score msg_norm x < Bot.score msg_norm key)%Q)
    /\ (forall x, In x after ->
          (Bot.score msg_norm x <= Bot.score msg_norm key)%Q).

(** [s] is the largest value among [0.0] and the scores of the keys. *)
Definition is_max_score (msg_norm : string) (keys : list string) (s : Q)
  : Prop :=
  (forall x, In x keys -> (Bot.score msg_norm x <= s)%Q)
  /\ ((s = 0%Q /\ forall x, In x keys -> ~ (0 < Bot.score msg_norm x)%Q)
      \/ ((0 < s)%Q /\ exists x, In x keys /\ s = Bot.score msg_norm x)).

(** *** The message handler *)

(** The messages the auto-reply branch is reached for: not from a bot, in
    a guild, on a configured channel. *)
Definition auto_reply_scope (st : Bot.State) (m : Bot.Message) : Prop :=
  Bot.user_bot (Bot.author m) = false
  /\ Bot.in_guild m = true
  /\ In (Bot.channel_id m) (Bot.get_faq_channels (Bot.config st)).

(** [text] is handed to the transport, as a reply or as a plain send. *)
Definition emits (acts : list Bot.Action) (text : string) : Prop :=
  In (Bot.Reply text) acts \/ In (Bot.ChannelSend text) acts.

(** *** Loading *)

(** The document at [path] is there, and reading it as JSON fails with
    [json.JSONDecodeError]: it is text, but not JSON. *)
Definition malformed (J : Type) (json_read : string -> Py.result J)
    (f : Storage.fs) (path data : string) : Prop :=
  f path = Some (Storage.File data)
  /\ json_read data = Py.Raise Py.JSONDecodeError.

(** *** The similarity measure *)

(** The positions of [x] in [b], counted from [i], in increasing order. *)
Fixpoint positions (b : list ascii) (x : ascii) (i : nat) : list nat :=
  match b with
  | [] => []
  | y :: b' =>
      if Ascii.eqb y x then i :: positions b' x (S i)
      else positions b' x (S i)
  end.

(** [x] is one of the elements [autojunk] removes from the index. *)
Definition popular (b : list ascii) (x : ascii) : bool :=
  (200 <=? List.length b)
  && (List.length b / 100 + 1 <? List.length (positions b x 0)).

(** The block [m] lies in [a[alo:ahi]] and [b[blo:bhi]]. *)
Definition block_within (alo ahi blo bhi : nat) (m : Difflib.Match) : Prop :=
  alo <= Difflib.m_a m /\ Difflib.m_a m + Difflib.m_size m <= ahi
  /\ blo <= Difflib.m_b m /\ Difflib.m_b m + Difflib.m_size m <= bhi.

(** A run ending in row [i - 1] and column [j] cannot be longer than the
    rows and the columns seen so far. *)
Definition table_bounded (alo blo i : nat) (t : Difflib.j2len_t) : Prop :=
  forall j,
    Difflib.j2len_lookup t j <= i - alo
    /\ Difflib.j2len_lookup t j <= S j - blo.

(** A queued range is well formed. *)
Definition range_ok (r : Difflib.range_t) : Prop :=
  let '(alo, ahi, blo, bhi) := r in alo <= ahi /\ blo <= bhi.

(** What a queued range can still cost: one turn for itself and two for
    each element of [a] it spans. *)
Definition range_cost (r : Difflib.range_t) : nat :=
  let '(alo, ahi, _, _) := r in 2 * (ahi - alo) + 1.

Definition queue_cost (queue : list Difflib.range_t) : nat :=
  list_sum (map range_cost queue).

(** The total size of a list of blocks. *)
Definition total_size (blocks : list Difflib.Match) : nat :=
  list_sum (map Difflib.m_size blocks).

(** No element of [a] occurs in [b]. *)
Definition disjoint (a b : list ascii) : Prop :=
  forall x, In x a -> ~ In x b.

(** The two strings have no character in common. *)
Definition no_common_char (a b : string) : Prop :=
  disjoint (list_ascii_of_string a) (list_ascii_of_string b).

(** [run s i]: how many elements of [s] just before position [i] are,
    without interruption, elements the index keeps (not popular). *)
Fixpoint run (s : list ascii) (i : nat) : nat :=
  match i with
  | 0 => 0
  | S i' =>
      match nth_error s i' with
      | Some x => if popular s x then 0 else S (run s i')
      | None => 0
      end
  end.

(** The table left by row [i - 1] of [s] against itself: a run ending at
    [(i - 1, j)] is no longer than the kept runs ending at [i - 1] and at
    [j]. *)
Definition table_run (s : list ascii) (i : nat) (t : Difflib.j2len_t)
  : Prop :=
  forall j,
    Difflib.j2len_lookup t j <= run s i
    /\ Difflib.j2len_lookup t j <= run s (S j).

(** On the diagonal the run is exactly the kept run. *)
Definition diag_ok (s : list ascii) (i : nat) (t : Difflib.j2len_t) : Prop :=
  forall i', i = S i' -> Difflib.j2len_lookup t i' = run s i.

(** The best block so far lies on the diagonal, within the rows seen, and
    is at least as long as every kept run seen. *)
Definition best_ok (s : list ascii) (i : nat) (best : Difflib.Match) : Prop :=
  Difflib.m_a best = Difflib.m_b best
  /\ Difflib.m_a best + Difflib.m_size best <= i
  /\ forall i', i' < i -> run s (S i') <= Difflib.m_size best.

(** The table a row builds from the columns [js], on top of [nt]. *)
Definition row_table (t : Difflib.j2len_t) (js : list nat)
    (nt : Difflib.j2len_t) : Difflib.j2len_t :=
  fold_left (fun acc j => (j, Difflib.j2lenget_pred t j + 1) :: acc) js nt.

(** *** Values used in the examples *)

(** A guild administrator, a plain guild member, the owner's id and a
    configuration with one auto-reply channel. *)
Definition an_admin : Bot.User := Bot.mkUser 42 false true true.
Definition a_member : Bot.User := Bot.mkUser 43 false true false.
Definition an_owner_id : Z := 1319292111325106296.
Definition a_config : Bot.Config := Bot.mkConfig (Some [7%Z]) (Some (3 # 5)%Q).
Definition a_world : Bot.World := Bot.mkWorld false 0.
Definition a_store : Bot.State := Bot.mkState [("hello", "Hi!")] a_config.

(** A stand-in for [json.load]: it reads the empty object; bytes that
    hold 0xFF, which no UTF-8 text does, make it raise
    [UnicodeDecodeError], and every other text [json.JSONDecodeError]. *)
Definition read_empty_object (data : string) : Py.result Bot.Config :=
  if String.eqb data "{}" then Py.Ok (Bot.mkConfig None None)
  else if existsb (Ascii.eqb (ascii_of_nat 255)) (list_ascii_of_string data)
       then Py.Raise Py.UnicodeDecodeError
       else Py.Raise Py.JSONDecodeError.

Definition default_config : Bot.Config :=
  Bot.mkConfig (Some []) (Some Bot.DEFAULT_SIMILARITY_THRESHOLD).

(** A damaged [config.json] and nothing else. *)
Definition damaged_fs : Storage.fs :=
  fun p => if String.eqb p "config.json"
           then Some (Storage.File "{oops") else None.

(** The same, with a directory named [config.json.bak]. *)
Definition damaged_fs_bak_dir : Storage.fs :=
  fun p => if String.eqb p "config.json.bak" then Some Storage.Dir
           else damaged_fs p.

(** A [config.json] whose first byte is 0xFF. *)
Definition garbled_fs : Storage.fs :=
  fun p => if String.eqb p "config.json"
           then Some (Storage.File (String (ascii_of_nat 255) "{}"))
           else None.

(** *** The commands *)

(** The caller of a command passes its permission check. *)
Definition caller_allowed (OWNER_ID : Z) (c : Session.Command) : bool :=
  match c with
  | Session.FaqAdd u _ _ | Session.FaqRemove u _
  | Session.SetFaqChannel u _ | Session.DisableFaqChannel u _
  | Session.SetThreshold u _ => Bot.admin_check OWNER_ID u
  | Session.PrefixFaqAdd ctx _ _ | Session.PrefixFaqRemove ctx _ =>
      Bot.check_any ctx
  end.

(** What holds of the two stores at any time: every question is there
    once, every channel is there once, the threshold lies in [0, 1]. *)
Definition state_ok (st : Bot.State) : Prop :=
  Dict.wf (Bot.faqs st)
  /\ NoDup (Bot.get_faq_channels (Bot.config st))
  /\ in_unit_interval (Bot.get_threshold (Bot.config st)).

(** The state [load_json] yields when neither document exists. *)
Definition fresh_state : Bot.State :=
  Bot.mkState []
    (Bot.mkConfig (Some []) (Some Bot.DEFAULT_SIMILARITY_THRESHOLD)).

(** The sum of [len(k) + 3] over the keys: the two characters of the
    bullet and the line break that follows each entry. *)
Definition listing_cost (keys : list string) : nat :=
  list_sum (map (fun k => String.length k + 3) keys).

(** The answers a view can show, with the key they belong to. *)
Definition shown (e : Commands.Event) (key answer : string) : Prop :=
  e = Commands.Say (Commands.Exact answer)
  \/ exists score, e = Commands.Say (Commands.Closest score key answer).

(** *** Text *)

(** A word as [split] yields it: not empty and without white space. *)
Definition is_word (w : list ascii) : Prop :=
  w <> [] /\ Forall (fun c => Text.is_space c = false) w.

(** The lower-case words of a text, [s.lower().split()]. *)
Definition words (s : string) : list (list ascii) :=
  Text.split (Text.lower (list_ascii_of_string s)).

(** *** The ranges still queued *)

(** How much of [a], and of [b], the queued ranges span. *)
Definition span_a (queue : list Difflib.range_t) : nat :=
  list_sum (map (fun r : Difflib.range_t =>
                   let '(alo, ahi, _, _) := r in ahi - alo) queue).

Definition span_b (queue : list Difflib.range_t) : nat :=
  list_sum (map (fun r : Difflib.range_t =>
                   let '(_, _, blo, bhi) := r in bhi - blo) queue).

(* ================================================================== *)
(** * Properties *)
(* ================================================================== *)

(** ** The store *)

Section DictFacts.

Lemma contains_In (d : Dict.t) (k : string) :
  Dict.contains d k = true <-> In k (Dict.keys d).
Proof.
  induction d as [|[k' v'] d IH]; simpl.
  - split; [discriminate | tauto].
  - destruct (String.eqb_spec k' k) as [->|Hne].
    + split; auto.
    + rewrite IH. split; [tauto | intros [H|H]; [contradiction | exact H]].
Qed.

Lemma contains_get (d : Dict.t) (k : string) :
  Dict.contains d k = true <-> exists v, Dict.get d k = Some v.
Proof.
  induction d as [|[k' v'] d IH]; simpl.
  - split; [discriminate | intros [v H]; discriminate].
  - destruct (String.eqb k' k); [|exact IH].
    split; [intros _; eexists; reflexivity | reflexivity].
Qed.

Lemma get_setitem_same (d : Dict.t) (k v : string) :
  Dict.get (Dict.setitem d k v) k = Some v.
Proof.
  induction d as [|[k' v'] d IH]; simpl.
  - now rewrite String.eqb_refl.
  - destruct (String.eqb k' k) eqn:E; simpl; now rewrite E.
Qed.

Lemma setitem_fresh (d : Dict.t) (k v : string) :
  Dict.contains d k = false -> Dict.setitem d k v = d ++ [(k, v)].
Proof.
  induction d as [|[k' v'] d IH]; simpl; [reflexivity|].
  destruct (String.eqb k' k); [discriminate|].
  intros H. now rewrite IH.
Qed.

Lemma keys_delitem_absent (d : Dict.t) (k : string) :
  Dict.contains d k = false -> Dict.delitem d k = d.
Proof.
  induction d as [|[k' v'] d IH]; simpl; [reflexivity|].
  destruct (String.eqb k' k); [discriminate|].
  intros H. now rewrite IH.
Qed.

Lemma delitem_not_contains (d : Dict.t) (k : string) :
  Dict.wf d -> Dict.contains (Dict.delitem d k) k = false.
Proof.
  unfold Dict.wf.
  induction d as [|[k' v'] d IH]; simpl; [reflexivity|].
  intros Hnd. inversion Hnd as [|? ? Hnotin Hnd']; subst.
  destruct (String.eqb_spec k' k) as [->|Hne].
  - destruct (Dict.contains d k) eqn:E; [|reflexivity].
    apply contains_In in E. contradiction.
  - simpl. destruct (String.eqb_spec k' k); [contradiction|]. now apply IH.
Qed.

End DictFacts.

(** ** Adding and removing questions *)

Section Commands.

Variable OWNER_ID : Z.

(** The prefix command refuses a question exactly when the very same
    string is already a key, and then changes nothing. *)
Lemma prefix_faq_add_exact (st : Bot.State) (ctx : Bot.Context)
    (question answer : string) :
  Bot.check_any ctx = true ->
  (Dict.contains (Bot.faqs st) question = true ->
     Bot.prefix_faq_add st ctx question answer
     = (st, [Bot.Send Bot.AlreadyExists]))
  /\ (Dict.contains (Bot.faqs st) question = false ->
     exists st',
       Bot.prefix_faq_add st ctx question answer
       = (st', [Bot.SaveFaqs (Bot.faqs st'); Bot.Send (Bot.FaqAdded question)])
       /\ Bot.faqs st' = Bot.faqs st ++ [(question, answer)]
       /\ Bot.config st' = Bot.config st).
Proof.
  intros Hok. unfold Bot.prefix_faq_add. rewrite Hok. simpl.
  split; intros H; rewrite H.
  - reflexivity.
  - exists (Bot.with_faqs st (Dict.setitem (Bot.faqs st) question answer)).
    split; [reflexivity|]. simpl.
    split; [now apply setitem_fresh | reflexivity].
Qed.

(** Adding the same key twice through the prefix command: the second call
    answers [AlreadyExists] and the first answer stays. *)
Lemma prefix_faq_add_twice (st : Bot.State) (ctx : Bot.Context)
    (question a1 a2 : string) :
  Bot.check_any ctx = true ->
  Dict.contains (Bot.faqs st) question = false ->
  let st1 := fst (Bot.prefix_faq_add st ctx question a1) in
  Bot.prefix_faq_add st1 ctx question a2 = (st1, [Bot.Send Bot.AlreadyExists])
  /\ Dict.get (Bot.faqs st1) question = Some a1.
Proof.
  intros Hok Hfresh.
  assert (E : Bot.prefix_faq_add st ctx question a1
              = (Bot.with_faqs st (Dict.setitem (Bot.faqs st) question a1),
                 [Bot.SaveFaqs (Dict.setitem (Bot.faqs st) question a1);
                  Bot.Send (Bot.FaqAdded question)])).
  { unfold Bot.prefix_faq_add. rewrite Hok. simpl. now rewrite Hfresh. }
  rewrite E. cbn [fst].
  assert (Hget : Dict.get (Dict.setitem (Bot.faqs st) question a1) question
                 = Some a1) by apply get_setitem_same.
  assert (Hin : Dict.contains (Dict.setitem (Bot.faqs st) question a1) question
                = true) by (apply contains_get; eauto).
  split; [|exact Hget].
  unfold Bot.prefix_faq_add. rewrite Hok. simpl. now rewrite Hin.
Qed.

(** The slash command looks the _normalised_ question up and stores the raw
    one: it refuses when the normalised question is a key ... *)
Lemma faq_add_checks_normalized (st : Bot.State) (user : Bot.User)
    (question answer : string) :
  Bot.admin_check OWNER_ID user = true ->
  Dict.contains (Bot.faqs st) (Text.normalize_text question) = true ->
  Bot.faq_add OWNER_ID st user question answer
  = (st, [Bot.Send Bot.AlreadyExists]).
Proof.
  intros Hok H. unfold Bot.faq_add. rewrite Hok. simpl. now rewrite H.
Qed.

(** ... and otherwise writes [faqs[question] = answer], whether or not
    [question] is a key already. *)
Lemma faq_add_stores_raw (st : Bot.State) (user : Bot.User)
    (question answer : string) :
  Bot.admin_check OWNER_ID user = true ->
  Dict.contains (Bot.faqs st) (Text.normalize_text question) = false ->
  Bot.faq_add OWNER_ID st user question answer
  = (Bot.with_faqs st (Dict.setitem (Bot.faqs st) question answer),
     [Bot.SaveFaqs (Dict.setitem (Bot.faqs st) question answer);
      Bot.Send (Bot.FaqAdded question)]).
Proof.
  intros Hok H. unfold Bot.faq_add. rewrite Hok. simpl. now rewrite H.
Qed.

End Commands.

(** C2, at the input where [/faq_add] departs from it: the store holds the
    key ["Hi There"] with answer ["A"], and an administrator adds
    ["Hi There"] again with answer ["B"].  The command looks up
    ["hi there"], which is not a key, and overwrites the stored answer,
    answering "FAQ added" instead of "already exists". *)
Theorem faq_add_overwrites_exact_duplicate :
  let st := Bot.mkState [("Hi There", "A")] a_config in
  Dict.contains (Bot.faqs st) "Hi There" = true
  /\ Bot.faq_add an_owner_id st an_admin "Hi There" "B"
     = (Bot.mkState [("Hi There", "B")] a_config,
        [Bot.SaveFaqs [("Hi There", "B")];
         Bot.Send (Bot.FaqAdded "Hi There")]).
Proof. vm_compute. split; reflexivity. Qed.

(** The same slip in the other direction: with only ["hi there"] stored,
    [/faq_add] refuses the new key ["Hi There"]. *)
Lemma faq_add_rejects_new_key :
  let st := Bot.mkState [("hi there", "A")] a_config in
  Dict.contains (Bot.faqs st) "Hi There" = false
  /\ Bot.faq_add an_owner_id st an_admin "Hi There" "B"
     = (st, [Bot.Send Bot.AlreadyExists]).
Proof. vm_compute. split; reflexivity. Qed.

(** ** Removing a question *)

Section Removal.

Variable OWNER_ID : Z.

(** The normalised scan returns the first key, in store order, whose
    normal form is that of the question. *)
Lemma find_normalized_first (keys : list string) (question k : string) :
  Bot.find_normalized keys question = Some k <->
  exists before after,
    keys = before ++ k :: after
    /\ Text.normalize_text k = Text.normalize_text question
    /\ forall x, In x before ->
         Text.normalize_text x <> Text.normalize_text question.
Proof.
  induction keys as [|x keys IH]; simpl.
  - split; [discriminate|]. intros (before & after & H & _).
    destruct before; discriminate.
  - destruct (String.eqb_spec (Text.normalize_text x)
                (Text.normalize_text question)) as [E|NE].
    + split.
      * intros [= ->]. exists [], keys. simpl. intuition.
      * intros (before & after & H & Hk & Hb).
        destruct before as [|y before]; simpl in H.
        -- now inversion H.
        -- inversion H; subst. exfalso. apply (Hb y); simpl; auto.
    + rewrite IH. split.
      * intros (before & after & -> & Hk & Hb).
        exists (x :: before), after. simpl. split; [reflexivity|].
        split; [exact Hk|]. intros y [<-|Hy]; auto.
      * intros (before & after & H & Hk & Hb).
        destruct before as [|y before]; simpl in H; inversion H; subst.
        -- contradiction.
        -- exists before, after. split; [reflexivity|]. split; [exact Hk|].
           intros z Hz. apply Hb. simpl; auto.
Qed.

Lemma find_normalized_none (keys : list string) (question : string) :
  Bot.find_normalized keys question = None <->
  forall x, In x keys ->
    Text.normalize_text x <> Text.normalize_text question.
Proof.
  induction keys as [|x keys IH]; simpl.
  - split; [intros _ y [] | reflexivity].
  - destruct (String.eqb_spec (Text.normalize_text x)
                (Text.normalize_text question)) as [E|NE].
    + split; [discriminate|]. intros H. exfalso. apply (H x); auto.
    + rewrite IH. split.
      * intros H y [<-|Hy]; auto.
      * intros H y Hy. apply H. auto.
Qed.

(** What the removal does in each of its three cases, for every store:
    the exact key when it is there; otherwise the first key with the same
    normal form, when that key is not the empty string; otherwise, with no
    such key at all, [NotFound] and no change. *)
Lemma remove_body_cases (st : Bot.State) (question : string) :
  (Dict.contains (Bot.faqs st) question = true ->
     Bot.remove_body st question
     = (Bot.with_faqs st (Dict.delitem (Bot.faqs st) question),
        [Bot.SaveFaqs (Dict.delitem (Bot.faqs st) question);
         Bot.Send (Bot.Removed question)]))
  /\ (Dict.contains (Bot.faqs st) question = false ->
      forall k,
        Bot.find_normalized (Dict.keys (Bot.faqs st)) question = Some k ->
        k <> "" ->
        Bot.remove_body st question
        = (Bot.with_faqs st (Dict.delitem (Bot.faqs st) k),
           [Bot.SaveFaqs (Dict.delitem (Bot.faqs st) k);
            Bot.Send (Bot.Removed k)]))
  /\ (Dict.contains (Bot.faqs st) question = false ->
      Bot.find_normalized (Dict.keys (Bot.faqs st)) question = None ->
      Bot.remove_body st question = (st, [Bot.Send Bot.NotFound])).
Proof.
  unfold Bot.remove_body. repeat split.
  - intros ->. reflexivity.
  - intros -> k -> Hk. destruct k; [contradiction | reflexivity].
  - intros -> ->. reflexivity.
Qed.

(** Both commands run that body once the caller is let through. *)
Lemma faq_remove_body (st : Bot.State) (user : Bot.User) (q : string) :
  Bot.admin_check OWNER_ID user = true ->
  Bot.faq_remove OWNER_ID st user q = Bot.remove_body st q.
Proof. intros H. unfold Bot.faq_remove. now rewrite H. Qed.

Lemma prefix_faq_remove_body (st : Bot.State) (ctx : Bot.Context)
    (q : string) :
  Bot.check_any ctx = true ->
  Bot.prefix_faq_remove st ctx q = Bot.remove_body st q.
Proof. intros H. unfold Bot.prefix_faq_remove. now rewrite H. Qed.

End Removal.

(** The example of the specification: with ["Hi There"] stored,
    removing ["hi there"] removes ["Hi There"] and says so. *)
Lemma remove_hi_there (answer : string) :
  let st := Bot.mkState [("Hi There", answer)] a_config in
  Bot.faq_remove an_owner_id st an_admin "hi there"
  = (Bot.mkState [] a_config,
     [Bot.SaveFaqs []; Bot.Send (Bot.Removed "Hi There")])
  /\ Bot.prefix_faq_remove st (Bot.mkContext true false) "hi there"
     = (Bot.mkState [] a_config,
        [Bot.SaveFaqs []; Bot.Send (Bot.Removed "Hi There")]).
Proof. split; reflexivity. Qed.

(** C4, at the input where the removal departs from it: the store holds
    the empty string as a key, and the question is one space.  The exact
    lookup misses, the scan finds the key [""] (both normal forms are
    empty), but the test [if found:] reads the empty key as "nothing
    found": the command answers [NotFound] and the store is unchanged,
    in [/faq_remove] and in [!faq_remove] alike. *)
Theorem faq_remove_misses_empty_key :
  let st := Bot.mkState [("", "a")] a_config in
  Dict.contains (Bot.faqs st) " " = false
  /\ Bot.find_normalized (Dict.keys (Bot.faqs st)) " " = Some ""
  /\ Bot.faq_remove an_owner_id st an_admin " "
     = (st, [Bot.Send Bot.NotFound])
  /\ Bot.prefix_faq_remove st (Bot.mkContext true false) " "
     = (st, [Bot.Send Bot.NotFound]).
Proof. vm_compute. repeat split; reflexivity. Qed.

(** ** The threshold *)

Lemma in_unit_interval_test (value : Q) :
  Qle_bool 0 value && Qle_bool value 1 = true <-> in_unit_interval value.
Proof.
  unfold in_unit_interval.
  rewrite andb_true_iff, !Qle_bool_iff. reflexivity.
Qed.

(** C8: a value outside [0,1] never changes the state; an administrator
    is told that the threshold is invalid (any other caller is refused
    before the value is looked at), and a value inside [0,1] given by
    an administrator becomes the stored threshold, the rest of the state
    being kept. *)
Theorem set_threshold_validates
    (OWNER_ID : Z) (st : Bot.State) (user : Bot.User) (value : Q) :
  (~ in_unit_interval value ->
     fst (Bot.set_threshold OWNER_ID st user value) = st
     /\ (Bot.admin_check OWNER_ID user = true ->
         snd (Bot.set_threshold OWNER_ID st user value)
         = [Bot.Send Bot.ThresholdInvalid])
     /\ (Bot.admin_check OWNER_ID user = false ->
         snd (Bot.set_threshold OWNER_ID st user value)
         = [Bot.Send Bot.NoPermission]))
  /\ (in_unit_interval value ->
      Bot.admin_check OWNER_ID user = true ->
      Bot.set_threshold OWNER_ID st user value
      = (Bot.mkState (Bot.faqs st)
           (Bot.mkConfig (Bot.faq_channels (Bot.config st)) (Some value)),
         [Bot.SaveConfig
            (Bot.mkConfig (Bot.faq_channels (Bot.config st)) (Some value));
          Bot.Send (Bot.ThresholdSet value)])
      /\ Bot.get_threshold
           (Bot.config (fst (Bot.set_threshold OWNER_ID st user value)))
         = value).
Proof.
  unfold Bot.set_threshold. split.
  - intros Hout.
    destruct (Qle_bool 0 value && Qle_bool value 1) eqn:E.
    + apply in_unit_interval_test in E. contradiction.
    + destruct (Bot.admin_check OWNER_ID user); simpl.
      * split; [reflexivity | split; [reflexivity | discriminate]].
      * split; [reflexivity | split; [discriminate | reflexivity]].
  - intros Hin Hadmin. apply in_unit_interval_test in Hin.
    rewrite Hadmin, Hin. simpl. split; reflexivity.
Qed.

(** The two values of the specification, [1.5] and [-0.1]: both are
    refused and leave the threshold where it was. *)
Lemma set_threshold_validates_witness :
  let st := Bot.mkState [] a_config in
  fst (Bot.set_threshold an_owner_id st an_admin (3 # 2)) = st
  /\ fst (Bot.set_threshold an_owner_id st an_admin (- 1 # 10)) = st
  /\ Bot.get_threshold
       (Bot.config (fst (Bot.set_threshold an_owner_id st an_admin (1 # 2))))
     = 1 # 2.
Proof.
  intros st.
  assert (N1 : ~ in_unit_interval (3 # 2))
    by (intros [_ H]; vm_compute in H; congruence).
  assert (N2 : ~ in_unit_interval (- 1 # 10))
    by (intros [H _]; vm_compute in H; congruence).
  assert (I3 : in_unit_interval (1 # 2))
    by (split; vm_compute; discriminate).
  split; [|split].
  - exact (proj1 (proj1 (set_threshold_validates an_owner_id st an_admin
                           (3 # 2)) N1)).
  - exact (proj1 (proj1 (set_threshold_validates an_owner_id st an_admin
                           (- 1 # 10)) N2)).
  - exact (proj2 (proj2 (set_threshold_validates an_owner_id st an_admin
                           (1 # 2)) I3 eq_refl)).
Defined.

(** ** The match resolver *)

Section Resolver.

Local Open Scope Q_scope.

Lemma gtb_true (x y : Q) : Py.gtb x y = true <-> y < x.
Proof.
  unfold Py.gtb. rewrite negb_true_iff.
  split.
  - intros H. apply Qnot_le_lt. intros Hle.
    apply Qle_bool_iff in Hle. congruence.
  - intros H. destruct (Qle_bool x y) eqn:E; [|reflexivity].
    apply Qle_bool_iff in E. exfalso. exact (Qlt_not_le _ _ H E).
Qed.

Lemma gtb_false (x y : Q) : Py.gtb x y = false <-> x <= y.
Proof.
  unfold Py.gtb. rewrite negb_false_iff. apply Qle_bool_iff.
Qed.

Lemma geb_true (x y : Q) : Py.geb x y = true <-> y <= x.
Proof. unfold Py.geb. apply Qle_bool_iff. Qed.

(** The loop over the keys, started with [(best_key, best_score)]: either
    no key scores above [best_score] and the pair is returned as it is, or
    the loop returns the first key with the largest score. *)
Lemma scan_keys_spec (msg_norm : string) (keys : list string)
    (best_key : option string) (best_score : Q) :
  (Bot.scan_keys msg_norm keys best_key best_score = (best_key, best_score)
   /\ forall x, In x keys -> Bot.score msg_norm x <= best_score)
  \/ (exists key,
        Bot.scan_keys msg_norm keys best_key best_score
        = (Some key, Bot.score msg_norm key)
        /\ best_score < Bot.score msg_norm key
        /\ first_maximal msg_norm keys key).
Proof.
  revert best_key best_score.
  induction keys as [|k keys IH]; intros bk bs; simpl.
  - left. split; [reflexivity | intros x []].
  - destruct (Py.gtb (Bot.score msg_norm k) bs) eqn:E.
    + apply gtb_true in E. right.
      destruct (IH (Some k) (Bot.score msg_norm k))
        as [[Hr Hall] | (key & Hr & Hlt & before & after & Hk & Hb & Ha)].
      * exists k. split; [exact Hr|]. split; [exact E|].
        exists [], keys. simpl. split; [reflexivity|].
        split; [intros x [] | exact Hall].
      * exists key. split; [exact Hr|].
        split; [eapply Qlt_trans; eassumption|].
        exists (k :: before), after. subst keys. split; [reflexivity|].
        split; [|exact Ha]. intros x [<-|Hx]; auto.
    + apply gtb_false in E.
      destruct (IH bk bs)
        as [[Hr Hall] | (key & Hr & Hlt & before & after & Hk & Hb & Ha)].
      * left. split; [exact Hr|]. intros x [<-|Hx]; auto.
      * right. exists key. split; [exact Hr|]. split; [exact Hlt|].
        exists (k :: before), after. subst keys. split; [reflexivity|].
        split; [|exact Ha]. intros x [<-|Hx]; auto.
        eapply Qle_lt_trans; eassumption.
Qed.

Lemma first_maximal_In (msg_norm : string) (keys : list string)
    (key : string) :
  first_maximal msg_norm keys key -> In key keys.
Proof.
  intros (before & after & -> & _). apply in_or_app. right. left. reflexivity.
Qed.

Lemma first_maximal_upper (msg_norm : string) (keys : list string)
    (key : string) :
  first_maximal msg_norm keys key ->
  forall x, In x keys -> Bot.score msg_norm x <= Bot.score msg_norm key.
Proof.
  intros (before & after & -> & Hb & Ha) x Hx.
  apply in_app_or in Hx. destruct Hx as [Hx|[<-|Hx]].
  - apply Qlt_le_weak. auto.
  - apply Qle_refl.
  - auto.
Qed.

(** The resolver's three outcomes, read off its code: it never raises;
    with a key scoring above [0.0] and the largest score at or above the
    threshold it returns the first key of largest score, the answer
    stored under it and that score; in every other case it returns no
    key, no answer and the largest score (which is [0.0] when no key
    scores above it). *)
Lemma best_faq_match_cases (st : Bot.State) (message : string) :
  let msg_norm := Text.normalize_text message in
  let keys := Dict.keys (Bot.faqs st) in
  let threshold := Bot.get_threshold (Bot.config st) in
  exists s,
    is_max_score msg_norm keys s
    /\ ((0 < s /\ threshold <= s
         /\ exists key answer,
              Bot.best_faq_match st message
              = Py.Ok (Some key, Some answer, s)
              /\ first_maximal msg_norm keys key
              /\ s = Bot.score msg_norm key
              /\ Dict.get (Bot.faqs st) key = Some answer)
        \/ (~ (0 < s /\ threshold <= s)
            /\ Bot.best_faq_match st message = Py.Ok (None, None, s))).
Proof.
  intros msg_norm keys threshold. unfold Bot.best_faq_match.
  fold msg_norm. fold keys. fold threshold.
  destruct (scan_keys_spec msg_norm keys None 0)
    as [[Hr Hall] | (key & Hr & Hlt & Hfm)]; rewrite Hr.
  - exists 0. split.
    + split; [exact Hall|]. left. split; [reflexivity|].
      intros x Hx Hpos. exact (Qlt_not_le _ _ Hpos (Hall x Hx)).
    + right. split; [|reflexivity].
      intros [H _]. exact (Qlt_irrefl _ H).
  - exists (Bot.score msg_norm key). split.
    + split; [exact (first_maximal_upper Hfm)|]. right.
      split; [exact Hlt|]. exists key.
      split; [exact (first_maximal_In Hfm) | reflexivity].
    + destruct (Py.geb (Bot.score msg_norm key) threshold) eqn:E.
      * apply geb_true in E. left. split; [exact Hlt|]. split; [exact E|].
        assert (Hin : In key keys) by exact (first_maximal_In Hfm).
        apply contains_In in Hin. apply contains_get in Hin.
        destruct Hin as [answer Hget]. exists key, answer.
        rewrite Hget. repeat split; auto.
      * right. split; [|reflexivity].
        intros [_ H]. apply geb_true in H. congruence.
Qed.

Lemma best_faq_match_total (st : Bot.State) (message : string) :
  exists r, Bot.best_faq_match st message = Py.Ok r.
Proof.
  destruct (best_faq_match_cases st message)
    as (s & _ & [(_ & _ & key & answer & H & _) | (_ & H)]);
    rewrite H; eexists; reflexivity.
Qed.

Lemma best_faq_match_shape (st : Bot.State) (message : string)
    (key answer : option string) (s : Q) :
  Bot.best_faq_match st message = Py.Ok (key, answer, s) ->
  (exists k a, key = Some k /\ answer = Some a
               /\ Dict.get (Bot.faqs st) k = Some a)
  \/ (key = None /\ answer = None).
Proof.
  destruct (best_faq_match_cases st message)
    as (s' & _ & [(_ & _ & k & a & H & _ & _ & Hget) | (_ & H)]);
    rewrite H; intros [= <- <- <-].
  - left. exists k, a. auto.
  - right. auto.
Qed.

End Resolver.

Section ResolverClaims.

Local Open Scope Q_scope.

(** C1, as the code has it: the resolver never raises.  When some key
    scores above [0.0] and the largest score reaches the threshold, it
    returns the first key of largest score, the answer stored under that
    key and the largest score; otherwise it returns no key and no answer,
    together with the largest score found ([0.0] when no key scores above
    it).  Against an empty store the result is no match with score
    [0.0]. *)
Theorem best_faq_match_outcome (st : Bot.State) (message : string) :
  let msg_norm := Text.normalize_text message in
  let keys := Dict.keys (Bot.faqs st) in
  let threshold := Bot.get_threshold (Bot.config st) in
  (exists s,
     is_max_score msg_norm keys s
     /\ ((0 < s /\ threshold <= s
          /\ exists key answer,
               Bot.best_faq_match st message
               = Py.Ok (Some key, Some answer, s)
               /\ first_maximal msg_norm keys key
               /\ s = Bot.score msg_norm key
               /\ Dict.get (Bot.faqs st) key = Some answer)
         \/ (~ (0 < s /\ threshold <= s)
             /\ Bot.best_faq_match st message = Py.Ok (None, None, s))))
  /\ (Bot.faqs st = [] ->
      Bot.best_faq_match st message = Py.Ok (None, None, 0)).
Proof.
  intros msg_norm keys threshold. split.
  - exact (best_faq_match_cases st message).
  - intros Hempty. unfold Bot.best_faq_match. rewrite Hempty. reflexivity.
Qed.

(** The empty store, with the default configuration. *)
Lemma best_faq_match_outcome_witness :
  Bot.best_faq_match (Bot.mkState [] a_config) "what are your hours"
  = Py.Ok (None, None, 0).
Proof.
  exact (proj2 (best_faq_match_outcome (Bot.mkState [] a_config)
                  "what are your hours") eq_refl).
Defined.

(** C1 as it is worded fails with the threshold set to [0.0] (a value
    [set_threshold] accepts) and a store none of whose keys shares a
    character with the message: the store is not empty and the largest
    score, [0.0], reaches the threshold, yet no key is returned. *)
Lemma best_faq_match_zero_threshold :
  let st := Bot.mkState [("abc", "x")] (Bot.mkConfig (Some [7%Z]) (Some 0)) in
  Bot.faqs st <> []
  /\ is_max_score (Text.normalize_text "zzz") (Dict.keys (Bot.faqs st)) 0
  /\ Bot.get_threshold (Bot.config st) <= 0
  /\ Bot.best_faq_match st "zzz" = Py.Ok (None, None, 0).
Proof.
  intros st. split; [discriminate|]. split; [|split].
  - split.
    + intros x [<-|[]]. vm_compute. discriminate.
    + left. split; [reflexivity|].
      intros x [<-|[]] H. vm_compute in H. discriminate.
  - vm_compute. discriminate.
  - vm_compute. reflexivity.
Qed.



End ResolverClaims.

(** ** The message handler *)

Section Handler.

Lemma content_or_empty_id (m : Bot.Message) :
  Bot.content_or_empty m = Bot.content m.
Proof.
  unfold Bot.content_or_empty. destruct (Bot.content m); reflexivity.
Qed.

Lemma existsb_channel (c : Z) (l : list Z) :
  existsb (Z.eqb c) l = true <-> In c l.
Proof.
  rewrite existsb_exists. split.
  - intros (x & Hx & E). apply Z.eqb_eq in E. now subst.
  - intros H. exists c. split; [exact H | apply Z.eqb_refl].
Qed.

Lemma random_choice_fallback (w : Bot.World) :
  In (Bot.random_choice w) Bot.FALLBACK_MESSAGES.
Proof.
  unfold Bot.random_choice. apply nth_In.
  apply Nat.mod_upper_bound. discriminate.
Qed.

(** A reply hands over its text and nothing else, and never asks for the
    commands to be processed. *)
Lemma reply_or_send_emits (w : Bot.World) (text x : string) :
  emits (Bot.reply_or_send w text) x <-> x = text.
Proof.
  unfold emits, Bot.reply_or_send.
  destruct (Bot.reply_forbidden w); simpl; split.
  - intros [[H|[H|[]]] | [H|[H|[]]]]; congruence.
  - intros ->. left. left. reflexivity.
  - intros [[H|[]] | [H|[]]]; congruence.
  - intros ->. left. left. reflexivity.
Qed.

Lemma reply_or_send_no_commands (w : Bot.World) (text : string) :
  ~ In Bot.ProcessCommands (Bot.reply_or_send w text).
Proof.
  unfold Bot.reply_or_send.
  destruct (Bot.reply_forbidden w); simpl; intuition discriminate.
Qed.

(** Inside the scope the handler runs the resolver and replies. *)
Lemma on_message_in_scope (st : Bot.State) (w : Bot.World) (m : Bot.Message) :
  auto_reply_scope st m ->
  Bot.on_message st w m
  = (r <- Bot.best_faq_match st (Bot.content_or_empty m) ;;
     let '(key, answer, _) := r in
     if Py.truthy_opt key
     then Py.Ok (Bot.reply_or_send w
                   (match answer with Some t => t | None => "" end))
     else Py.Ok (Bot.reply_or_send w (Bot.random_choice w))).
Proof.
  intros (Hbot & Hguild & Hin). unfold Bot.on_message.
  rewrite Hbot, Hguild. simpl.
  destruct (Bot.get_faq_channels (Bot.config st)) as [|c l] eqn:E.
  - destruct Hin.
  - apply existsb_channel in Hin. rewrite Hin. reflexivity.
Qed.

(** Outside the scope it emits nothing; the only thing it may do is to
    pass the message on to the command processor. *)
Lemma on_message_out_of_scope (st : Bot.State) (w : Bot.World)
    (m : Bot.Message) :
  ~ auto_reply_scope st m ->
  Bot.on_message st w m = Py.Ok []
  \/ (Bot.on_message st w m = Py.Ok [Bot.ProcessCommands]
      /\ Bot.user_bot (Bot.author m) = false
      /\ Bot.in_guild m = true).
Proof.
  intros Hout. unfold Bot.on_message.
  destruct (Bot.user_bot (Bot.author m)) eqn:Hbot; [left; reflexivity|].
  destruct (Bot.in_guild m) eqn:Hguild; [|left; reflexivity]. simpl.
  destruct (Bot.get_faq_channels (Bot.config st)) as [|c l] eqn:E.
  - right. auto.
  - destruct (existsb (Z.eqb (Bot.channel_id m)) (c :: l)) eqn:Hex.
    + exfalso. apply Hout. unfold auto_reply_scope.
      rewrite E. apply existsb_channel in Hex. auto.
    + right. auto.
Qed.

(** C5, as the code has it: the auto-reply is reached exactly for the
    messages that are not from a bot, are in a guild and arrive on a
    configured channel, whoever the sender is and whatever the text.  For
    such a message, when the resolver returns a key other than the empty
    string the handler emits the stored answer and nothing else; when the
    resolver returns no key it emits one of the fallback messages.  For
    every other message nothing is emitted. *)
Theorem on_message_auto_reply (st : Bot.State) (w : Bot.World)
    (m : Bot.Message) :
  (auto_reply_scope st m ->
     forall key answer s,
       Bot.best_faq_match st (Bot.content_or_empty m)
       = Py.Ok (key, answer, s) ->
       (forall k, key = Some k -> k <> "" ->
          exists a,
            answer = Some a
            /\ Dict.get (Bot.faqs st) k = Some a
            /\ Bot.on_message st w m = Py.Ok (Bot.reply_or_send w a)
            /\ forall x, emits (Bot.reply_or_send w a) x <-> x = a)
       /\ (key = None ->
           Bot.on_message st w m
           = Py.Ok (Bot.reply_or_send w (Bot.random_choice w))
           /\ In (Bot.random_choice w) Bot.FALLBACK_MESSAGES))
  /\ (~ auto_reply_scope st m ->
      exists acts,
        Bot.on_message st w m = Py.Ok acts
        /\ forall x, ~ emits acts x).
Proof.
  split.
  - intros Hscope key answer s Hres.
    rewrite (on_message_in_scope w Hscope), Hres. simpl.
    destruct (best_faq_match_shape _ _ Hres)
      as [(k & a & -> & -> & Hget) | [-> ->]].
    + split; [|discriminate].
      intros k' [= <-] Hne. exists a.
      destruct k as [|c k]; [contradiction|]. simpl.
      repeat split; auto; apply reply_or_send_emits.
    + split; [discriminate|]. intros _. simpl.
      split; [reflexivity | apply random_choice_fallback].
  - intros Hout.
    destruct (on_message_out_of_scope w Hout) as [H | (H & _)];
      rewrite H; eexists; (split; [reflexivity|]);
      intros x [Hx|Hx]; simpl in Hx; intuition discriminate.
Qed.

End Handler.

Section HandlerClaims.

(** A plain member greets on the configured channel and is answered. *)
Lemma on_message_auto_reply_witness :
  let m := Bot.mkMessage a_member true 7 "Hello" in
  auto_reply_scope a_store m
  /\ Bot.on_message a_store a_world m = Py.Ok [Bot.Reply "Hi!"].
Proof.
  intros m.
  assert (Hscope : auto_reply_scope a_store m)
    by (repeat split; simpl; auto).
  assert (Hres : Bot.best_faq_match a_store (Bot.content_or_empty m)
                 = Py.Ok (Some "hello", Some "Hi!", 1%Q))
    by (vm_compute; reflexivity).
  assert (Hne : "hello" <> "") by discriminate.
  split; [exact Hscope|].
  destruct (proj1 (proj1 (on_message_auto_reply a_store a_world m) Hscope
                     (Some "hello") (Some "Hi!") 1%Q Hres)
              "hello" eq_refl Hne)
    as (a & Ha & _ & Hon & _).
  inversion Ha; subst a. exact Hon.
Defined.

(** C5 as it is worded fails for a privileged sender: an administrator
    writing on a configured channel is answered like anyone else, and so
    is a message that reads like a command. *)
Lemma on_message_replies_to_administrator :
  let m := Bot.mkMessage an_admin true 7 "hello" in
  let cmd := Bot.mkMessage an_admin true 7 "!faq_list" in
  Bot.is_admin_or_owner an_owner_id (Some (Bot.author m)) = true
  /\ Bot.admin_check an_owner_id (Bot.author m) = true
  /\ Bot.on_message a_store a_world m = Py.Ok [Bot.Reply "Hi!"]
  /\ Bot.on_message a_store a_world cmd
     = Py.Ok [Bot.Reply (Bot.random_choice a_world)].
Proof. vm_compute. repeat split; reflexivity. Qed.

(** C10: a message that is not from a bot, is in a guild and arrives on a
    configured channel is always answered, with the answer of the
    matched question or with a fallback message, and is not passed on to
    the command processor; the command processor is only reached for
    guild messages of non-bots outside the configured channels (which
    includes the case of no channel configured at all). *)
Theorem on_message_configured_channel (st : Bot.State) (w : Bot.World)
    (m : Bot.Message) :
  (auto_reply_scope st m ->
     exists text,
       Bot.on_message st w m = Py.Ok (Bot.reply_or_send w text)
       /\ emits (Bot.reply_or_send w text) text
       /\ ~ In Bot.ProcessCommands (Bot.reply_or_send w text)
       /\ ((exists key s,
              Bot.best_faq_match st (Bot.content_or_empty m)
              = Py.Ok (Some key, Some text, s))
           \/ In text Bot.FALLBACK_MESSAGES))
  /\ (forall acts,
        Bot.on_message st w m = Py.Ok acts ->
        In Bot.ProcessCommands acts ->
        Bot.user_bot (Bot.author m) = false
        /\ Bot.in_guild m = true
        /\ ~ In (Bot.channel_id m) (Bot.get_faq_channels (Bot.config st))).
Proof.
  split.
  - intros Hscope. rewrite (on_message_in_scope w Hscope).
    destruct (best_faq_match_total st (Bot.content_or_empty m))
      as [[[key answer] s] Hres].
    rewrite Hres. simpl.
    destruct (best_faq_match_shape _ _ Hres)
      as [(k & a & -> & -> & Hget) | [-> ->]]; simpl.
    + destruct (Py.truthy k).
      * exists a. split; [reflexivity|].
        split; [now apply reply_or_send_emits|].
        split; [apply reply_or_send_no_commands|].
        left. exists k, s. reflexivity.
      * exists (Bot.random_choice w). split; [reflexivity|].
        split; [now apply reply_or_send_emits|].
        split; [apply reply_or_send_no_commands|].
        right. apply random_choice_fallback.
    + exists (Bot.random_choice w). split; [reflexivity|].
      split; [now apply reply_or_send_emits|].
      split; [apply reply_or_send_no_commands|].
      right. apply random_choice_fallback.
  - intros acts Hacts Hin.
    assert (Hout : ~ auto_reply_scope st m).
    { intros Hscope. rewrite (on_message_in_scope w Hscope) in Hacts.
      destruct (best_faq_match_total st (Bot.content_or_empty m))
        as [[[key answer] s] Hres].
      rewrite Hres in Hacts. simpl in Hacts.
      destruct (Py.truthy_opt key); inversion Hacts; subst acts;
        exact (reply_or_send_no_commands _ _ Hin). }
    destruct (on_message_out_of_scope w Hout) as [H | (H & Hbot & Hguild)];
      rewrite H in Hacts; inversion Hacts; subst acts.
    + destruct Hin.
    + split; [exact Hbot|]. split; [exact Hguild|].
      intros Hc. apply Hout. unfold auto_reply_scope. auto.
Qed.

(** A prefix command typed on the configured channel gets a fallback
    message; the same command on another channel reaches the command
    processor. *)
Lemma on_message_configured_channel_witness :
  let cmd := Bot.mkMessage an_admin true 7 "!faq_list" in
  let elsewhere := Bot.mkMessage an_admin true 8 "!faq_list" in
  (exists text,
     Bot.on_message a_store a_world cmd
     = Py.Ok (Bot.reply_or_send a_world text)
     /\ ~ In Bot.ProcessCommands (Bot.reply_or_send a_world text))
  /\ ~ In (Bot.channel_id elsewhere)
         (Bot.get_faq_channels (Bot.config a_store)).
Proof.
  intros cmd elsewhere. split.
  - assert (Hscope : auto_reply_scope a_store cmd)
      by (repeat split; simpl; auto).
    destruct (proj1 (on_message_configured_channel a_store a_world cmd) Hscope)
      as (text & Hon & _ & Hno & _).
    exists text. split; assumption.
  - assert (Hacts : Bot.on_message a_store a_world elsewhere
                    = Py.Ok [Bot.ProcessCommands]) by reflexivity.
    exact (proj2 (proj2 (proj2 (on_message_configured_channel
                                  a_store a_world elsewhere)
                                 [Bot.ProcessCommands] Hacts
                                 (or_introl eq_refl)))).
Defined.

End HandlerClaims.

(** ** Loading a document *)

Section Loading.

Local Open Scope string_scope.

Variable J : Type.
Variable json_read : string -> Py.result J.

Lemma length_append (s1 s2 : string) :
  String.length (s1 ++ s2) = String.length s1 + String.length s2.
Proof. induction s1 as [|c s1 IH]; simpl; [reflexivity | now rewrite IH]. Qed.

(** The backup name differs from the name of the document. *)
Lemma bak_neq (path : string) : path ++ ".bak" <> path.
Proof.
  intros H. apply (f_equal String.length) in H.
  rewrite length_append in H. simpl in H. lia.
Qed.

(** The file system after a successful [os.rename(path, path + ".bak")]. *)
Lemma renamed_to_bak (f : Storage.fs) (path : string) (n : Storage.node) :
  let f' := Storage.update (Storage.update f (path ++ ".bak") (Some n))
              path None in
  f' (path ++ ".bak") = Some n
  /\ f' path = None
  /\ forall p, p <> path -> p <> path ++ ".bak" -> f' p = f p.
Proof.
  unfold Storage.update. repeat split.
  - destruct (String.eqb_spec (path ++ ".bak") path) as [E|_];
      [exact (False_ind _ (bak_neq E))|].
    now rewrite String.eqb_refl.
  - now rewrite String.eqb_refl.
  - intros p Hp Hb.
    destruct (String.eqb_spec p path); [contradiction|].
    destruct (String.eqb_spec p (path ++ ".bak")); [contradiction|].
    reflexivity.
Qed.

(** C9, as the code has it: a missing file yields the default and
    leaves the file system alone.  A document that is text but not JSON
    ([json.load] raises [JSONDecodeError]) yields the default as well,
    and no exception; the loader then tries to rename it to
    [path + ".bak"].  Unless a directory bears that name, the bytes are
    afterwards found under the backup name, the original name is free and
    no other path is touched; with a directory in the way the failed
    rename is swallowed and the file system is unchanged. *)
Theorem load_json_recovers (f : Storage.fs) (path : string) (default : J) :
  (f path = None ->
     Storage.load_json json_read f path default = (Py.Ok default, f))
  /\ (forall data,
        malformed json_read f path data ->
        fst (Storage.load_json json_read f path default) = Py.Ok default
        /\ (f (path ++ ".bak") <> Some Storage.Dir ->
            let f' := snd (Storage.load_json json_read f path default) in
            f' (path ++ ".bak") = Some (Storage.File data)
            /\ f' path = None
            /\ forall p, p <> path -> p <> path ++ ".bak" -> f' p = f p)
        /\ (f (path ++ ".bak") = Some Storage.Dir ->
            snd (Storage.load_json json_read f path default) = f)).
Proof.
  unfold Storage.load_json, Storage.json_load, Storage.open_read,
    Storage.os_rename.
  split.
  - intros ->. reflexivity.
  - intros data [Hfile Hbad]. rewrite Hfile. cbn [Py.bind]. rewrite Hbad.
    destruct (f (path ++ ".bak")) as [[t|]|] eqn:Hbak; simpl;
      (split; [reflexivity|]); split.
    + intros _. apply renamed_to_bak.
    + discriminate.
    + intros H. now contradiction H.
    + reflexivity.
    + intros _. apply renamed_to_bak.
    + discriminate.
Qed.

(** What [load_json] does not catch: when reading the document raises
    anything but the two exceptions named in the [except] clauses, for
    one [UnicodeDecodeError] on bytes that are not UTF-8, the exception
    leaves [load_json]; no default is returned and no backup is made. *)
Lemma load_json_propagates (f : Storage.fs) (path data : string)
    (default : J) (e : Py.exn) :
  f path = Some (Storage.File data) ->
  json_read data = Py.Raise e ->
  e <> Py.FileNotFoundError -> e <> Py.JSONDecodeError ->
  Storage.load_json json_read f path default = (Py.Raise e, f).
Proof.
  intros Hfile Hread H1 H2.
  unfold Storage.load_json, Storage.json_load, Storage.open_read.
  rewrite Hfile. cbn [Py.bind]. rewrite Hread.
  destruct e; try reflexivity; congruence.
Qed.

End Loading.

Section LoadingExamples.

Local Open Scope string_scope.

(** The damaged document is moved aside and the default is used. *)
Lemma load_json_recovers_witness :
  malformed read_empty_object damaged_fs "config.json" "{oops"
  /\ fst (Storage.load_json read_empty_object damaged_fs "config.json"
            default_config) = Py.Ok default_config
  /\ snd (Storage.load_json read_empty_object damaged_fs "config.json"
            default_config) "config.json.bak"
     = Some (Storage.File "{oops").
Proof.
  assert (Hbad : malformed read_empty_object damaged_fs "config.json" "{oops")
    by (split; reflexivity).
  assert (Hfree : damaged_fs ("config.json" ++ ".bak") <> Some Storage.Dir)
    by discriminate.
  split; [exact Hbad|].
  destruct (proj2 (load_json_recovers read_empty_object damaged_fs
                     "config.json" default_config) "{oops" Hbad)
    as (Hdef & Hmoved & _).
  split; [exact Hdef|].
  exact (proj1 (Hmoved Hfree)).
Defined.

(** C9 as it is worded fails when the backup name is taken by a
    directory: the document does not parse, the default is returned
    without an exception, but the rename fails, nothing is preserved
    under the backup name and the damaged document stays in place. *)
Lemma load_json_backup_name_taken :
  let r := Storage.load_json read_empty_object damaged_fs_bak_dir
             "config.json" default_config in
  malformed read_empty_object damaged_fs_bak_dir "config.json" "{oops"
  /\ fst r = Py.Ok default_config
  /\ snd r "config.json.bak" = Some Storage.Dir
  /\ snd r "config.json.bak" <> Some (Storage.File "{oops")
  /\ snd r "config.json" = Some (Storage.File "{oops").
Proof.
  vm_compute. repeat split; try reflexivity. discriminate.
Qed.

(** A document that is not even UTF-8 is not recovered from: the
    exception leaves [load_json] and the file stays as it is. *)
Lemma load_json_undecodable :
  Storage.load_json read_empty_object garbled_fs "config.json" default_config
  = (Py.Raise Py.UnicodeDecodeError, garbled_fs).
Proof.
  eapply load_json_propagates;
    [reflexivity | reflexivity | discriminate | discriminate].
Qed.

End LoadingExamples.

(** ** The similarity measure *)

Unset Implicit Arguments.

(** *** The index [b2j] *)

Section ChainB.

Import Difflib.

Lemma positions_spec (b : list ascii) (x : ascii) (i j : nat) :
  In j (positions b x i) <-> i <= j /\ nth_error b (j - i) = Some x.
Proof.
  revert i. induction b as [|y b IH]; intros i; simpl.
  - split; [intros [] | intros [_ H]]. destruct (j - i); discriminate.
  - assert (Hrec : In j (positions b x (S i)) <->
                   i < j /\ nth_error (y :: b) (j - i) = Some x).
    { rewrite IH. split.
      - intros [Hle H]. split; [lia|].
        replace (j - i) with (S (j - S i)) by lia. exact H.
      - intros [Hlt H]. split; [lia|].
        replace (j - i) with (S (j - S i)) in H by lia. exact H. }
    destruct (Ascii.eqb_spec y x) as [->|Hne].
    + simpl. rewrite Hrec. split.
      * intros [<-|[Hlt H]].
        -- split; [lia|]. now rewrite Nat.sub_diag.
        -- split; [lia | exact H].
      * intros [Hle H]. destruct (Nat.eq_dec i j) as [->|Hn]; auto.
        right. split; [lia | exact H].
    + rewrite Hrec. split.
      * intros [Hlt H]. split; [lia | exact H].
      * intros [Hle H]. split; [|exact H].
        destruct (Nat.eq_dec i j) as [->|Hn]; [|lia].
        rewrite Nat.sub_diag in H. simpl in H. congruence.
Qed.

Lemma positions_lower (b : list ascii) (x : ascii) (i : nat) :
  Forall (fun j => i <= j) (positions b x i).
Proof.
  apply Forall_forall. intros j H. now apply positions_spec in H.
Qed.

(** The positions come in strictly increasing order: around any one of
    them, the earlier ones are smaller and the later ones larger. *)
Lemma positions_split (b : list ascii) (x : ascii) (i j : nat) :
  In j (positions b x i) ->
  exists l1 l2,
    positions b x i = l1 ++ j :: l2
    /\ Forall (fun j' => j' < j) l1
    /\ Forall (fun j' => j < j') l2.
Proof.
  revert i. induction b as [|y b IH]; intros i; simpl; [intros []|].
  assert (Hrec : In j (positions b x (S i)) ->
                 forall pre, Forall (fun j' => j' < j) pre ->
                 exists l1 l2,
                   pre ++ positions b x (S i) = l1 ++ j :: l2
                   /\ Forall (fun j' => j' < j) l1
                   /\ Forall (fun j' => j < j') l2).
  { intros H pre Hpre. destruct (IH _ H) as (l1 & l2 & E & H1 & H2).
    exists (pre ++ l1), l2. rewrite E, app_assoc.
    split; [reflexivity|]. split; [|exact H2].
    apply Forall_app. auto. }
  destruct (Ascii.eqb y x).
  - intros [<-|H].
    + exists [], (positions b x (S i)). split; [reflexivity|].
      split; [constructor|].
      eapply Forall_impl; [|apply positions_lower]. simpl. intros; lia.
    + apply (Hrec H [i]). constructor; [|constructor].
      apply positions_spec in H. lia.
  - intros H. exact (Hrec H [] (Forall_nil _)).
Qed.

Lemma get_setdefault_append (d : b2j_t) (elt x : ascii) (i : nat) :
  b2j_get (setdefault_append d elt i) x
  = if Ascii.eqb elt x then b2j_get d x ++ [i] else b2j_get d x.
Proof.
  induction d as [|[k idxs] d IH]; simpl.
  - destruct (Ascii.eqb elt x); reflexivity.
  - destruct (Ascii.eqb_spec k elt) as [->|Hne]; simpl.
    + destruct (Ascii.eqb elt x); reflexivity.
    + destruct (Ascii.eqb_spec k x) as [->|Hkx].
      * destruct (Ascii.eqb_spec elt x); [congruence | reflexivity].
      * exact IH.
Qed.

Lemma get_chain_loop (b : list ascii) (i : nat) (d : b2j_t) (x : ascii) :
  b2j_get (chain_loop b i d) x = b2j_get d x ++ positions b x i.
Proof.
  revert i d. induction b as [|y b IH]; intros i d; simpl.
  - now rewrite app_nil_r.
  - rewrite IH, get_setdefault_append.
    destruct (Ascii.eqb y x); [|reflexivity].
    now rewrite <- app_assoc.
Qed.

Lemma keys_setdefault_append (d : b2j_t) (elt : ascii) (i : nat) :
  map fst (setdefault_append d elt i)
  = if existsb (Ascii.eqb elt) (map fst d) then map fst d
    else map fst d ++ [elt].
Proof.
  induction d as [|[k idxs] d IH]; simpl; [reflexivity|].
  destruct (Ascii.eqb_spec k elt) as [->|Hne]; simpl.
  - now rewrite Ascii.eqb_refl.
  - destruct (Ascii.eqb_spec elt k); [congruence|]. simpl.
    rewrite IH. destruct (existsb (Ascii.eqb elt) (map fst d)); reflexivity.
Qed.

Lemma NoDup_setdefault_append (d : b2j_t) (elt : ascii) (i : nat) :
  NoDup (map fst d) -> NoDup (map fst (setdefault_append d elt i)).
Proof.
  intros H. rewrite keys_setdefault_append.
  destruct (existsb (Ascii.eqb elt) (map fst d)) eqn:E; [exact H|].
  apply NoDup_app; [exact H | repeat constructor; intros [] | ].
  intros k Hk [<-|[]].
  assert (existsb (Ascii.eqb elt) (map fst d) = true); [|congruence].
  apply existsb_exists. exists elt. split; [exact Hk | apply Ascii.eqb_refl].
Qed.

Lemma NoDup_chain_loop (b : list ascii) (i : nat) (d : b2j_t) :
  NoDup (map fst d) -> NoDup (map fst (chain_loop b i d)).
Proof.
  revert i d. induction b as [|y b IH]; intros i d H; simpl; [exact H|].
  apply IH. now apply NoDup_setdefault_append.
Qed.

Lemma get_absent (d : b2j_t) (x : ascii) :
  ~ In x (map fst d) -> b2j_get d x = [].
Proof.
  induction d as [|[k idxs] d IH]; simpl; [reflexivity|].
  intros H. destruct (Ascii.eqb_spec k x) as [->|Hne]; [tauto|].
  apply IH. tauto.
Qed.

Lemma get_filter (q : list nat -> bool) (d : b2j_t) (x : ascii) :
  NoDup (map fst d) ->
  b2j_get (filter (fun kv => q (snd kv)) d) x
  = if q (b2j_get d x) then b2j_get d x else [].
Proof.
  induction d as [|[k idxs] d IH]; simpl.
  - intros _. destruct (q []); reflexivity.
  - intros Hnd. inversion Hnd as [|? ? Hnotin Hnd']; subst.
    destruct (Ascii.eqb_spec k x) as [->|Hne].
    + destruct (q idxs) eqn:Eq; simpl.
      * now rewrite Ascii.eqb_refl.
      * apply get_absent. intros Hin. apply Hnotin.
        apply in_map_iff in Hin. destruct Hin as ([k' v'] & <- & Hin).
        apply filter_In in Hin. apply in_map_iff.
        exists (k', v'). split; [reflexivity | tauto].
    + destruct (q idxs); simpl.
      * destruct (Ascii.eqb_spec k x); [congruence|]. now apply IH.
      * now apply IH.
Qed.

(** The index [chain_b] builds: nothing for a popular element, and for
    any other element all its positions in increasing order. *)
Lemma get_chain_b (b : list ascii) (x : ascii) :
  b2j_get (chain_b b) x = if popular b x then [] else positions b x 0.
Proof.
  unfold chain_b, purge_popular, popular.
  destruct (200 <=? List.length b); cbn [andb].
  - rewrite (get_filter
               (fun idxs => negb (List.length b / 100 + 1 <? List.length idxs))).
    + rewrite get_chain_loop.
      change (b2j_get [] x ++ positions b x 0) with (positions b x 0).
      destruct (List.length b / 100 + 1 <? List.length (positions b x 0));
        reflexivity.
    + apply NoDup_chain_loop. constructor.
  - now rewrite get_chain_loop.
Qed.

Lemma chain_b_sound (b : list ascii) (x : ascii) (j : nat) :
  In j (b2j_get (chain_b b) x) -> nth_error b j = Some x.
Proof.
  rewrite get_chain_b. destruct (popular b x); [intros []|].
  intros H. apply positions_spec in H. destruct H as [_ H].
  now rewrite Nat.sub_0_r in H.
Qed.

End ChainB.

(** *** [find_longest_match] stays inside the ranges it is given *)

Section Bounds.

Import Difflib.

Variables a b : list ascii.
Variable b2j : b2j_t.

Lemma row_loop_bounds (alo blo bhi i : nat) (t : j2len_t) :
  alo <= i ->
  table_bounded alo blo i t ->
  forall js nt best,
    table_bounded alo blo (S i) nt ->
    block_within alo (S i) blo bhi best ->
    table_bounded alo blo (S i) (fst (row_loop i blo bhi t js nt best))
    /\ block_within alo (S i) blo bhi (snd (row_loop i blo bhi t js nt best)).
Proof.
  intros Hi Ht. induction js as [|j js IH]; intros nt best Hnt Hbest; simpl.
  - auto.
  - destruct (j <? blo) eqn:Elo; [now apply IH|].
    destruct (bhi <=? j) eqn:Ehi; [simpl; auto|].
    apply Nat.ltb_ge in Elo. apply Nat.leb_gt in Ehi.
    assert (Hk : j2lenget_pred t j + 1 <= S i - alo
                 /\ j2lenget_pred t j + 1 <= S j - blo).
    { destruct j as [|j']; cbn [j2lenget_pred]; [lia|].
      destruct (Ht j') as [H1 H2]. lia. }
    destruct Hk as [Hk1 Hk2]. apply IH.
    + intros j0. cbn [j2len_lookup]. destruct (j =? j0) eqn:E.
      * apply Nat.eqb_eq in E. subst j0. lia.
      * apply Hnt.
    + destruct (m_size best <? j2lenget_pred t j + 1); [|exact Hbest].
      unfold block_within. simpl. lia.
Qed.

Lemma scan_rows_bounds (alo blo bhi : nat) (cnt : nat) :
  forall i t best,
    alo <= i ->
    table_bounded alo blo i t ->
    block_within alo i blo bhi best ->
    block_within alo (i + cnt) blo bhi
      (scan_rows a b2j blo bhi (seq i cnt) t best).
Proof.
  induction cnt as [|cnt IH]; intros i t best Hi Ht Hbest; simpl.
  - now rewrite Nat.add_0_r.
  - set (js := match nth_error a i with
               | Some x => b2j_get b2j x
               | None => []
               end).
    assert (Hnil : table_bounded alo blo (S i) [])
      by (intros j; cbn [j2len_lookup]; lia).
    assert (Hb : block_within alo (S i) blo bhi best)
      by (unfold block_within in *; lia).
    destruct (row_loop_bounds alo blo bhi i t Hi Ht js [] best Hnil Hb)
      as [H1 H2].
    destruct (row_loop i blo bhi t js [] best) as [nt best'].
    replace (i + S cnt) with (S i + cnt) by lia.
    apply IH; auto.
Qed.

Lemma extend_left_bounds (keep : ascii -> bool) (alo blo : nat) :
  forall besti bestj size,
    alo <= besti -> blo <= bestj ->
    let m := extend_left keep a b alo blo besti bestj size in
    alo <= m_a m /\ blo <= m_b m
    /\ m_a m + m_size m = besti + size
    /\ m_b m + m_size m = bestj + size
    /\ size <= m_size m.
Proof.
  induction besti as [|i IH]; intros bestj size Ha Hb; simpl.
  - lia.
  - destruct bestj as [|j]; simpl; [lia|].
    destruct ((alo <? S i) && (blo <? S j) && same_at keep a b i j) eqn:E;
      simpl; [|lia].
    apply andb_true_iff in E. destruct E as [E _].
    apply andb_true_iff in E. destruct E as [E1 E2].
    apply Nat.ltb_lt in E1, E2.
    destruct (IH j (S size)) as (H1 & H2 & H3 & H4 & H5); lia.
Qed.

Lemma extend_right_bounds (keep : ascii -> bool) (ahi bhi besti bestj : nat) :
  forall fuel size,
    besti + size <= ahi -> bestj + size <= bhi ->
    let size' := extend_right keep a b ahi bhi besti bestj size fuel in
    size <= size' /\ besti + size' <= ahi /\ bestj + size' <= bhi.
Proof.
  induction fuel as [|fuel IH]; intros size Ha Hb; simpl; [lia|].
  destruct ((besti + size <? ahi) && (bestj + size <? bhi)
            && same_at keep a b (besti + size) (bestj + size)) eqn:E;
    [|lia].
  apply andb_true_iff in E. destruct E as [E _].
  apply andb_true_iff in E. destruct E as [E1 E2].
  apply Nat.ltb_lt in E1, E2.
  destruct (IH (S size)) as (H1 & H2 & H3); lia.
Qed.

Lemma extend_bounds (keep : ascii -> bool) (alo ahi blo bhi : nat)
    (m : Match) :
  block_within alo ahi blo bhi m ->
  block_within alo ahi blo bhi (extend keep a b alo ahi blo bhi m)
  /\ m_size m <= m_size (extend keep a b alo ahi blo bhi m).
Proof.
  intros (H1 & H2 & H3 & H4). unfold extend.
  destruct (extend_left_bounds keep alo blo (m_a m) (m_b m) (m_size m) H1 H3)
    as (L1 & L2 & L3 & L4 & L5).
  set (m1 := extend_left keep a b alo blo (m_a m) (m_b m) (m_size m)) in *.
  destruct (extend_right_bounds keep ahi bhi (m_a m1) (m_b m1)
              (ahi - (m_a m1 + m_size m1)) (m_size m1))
    as (R1 & R2 & R3); [lia | lia |].
  unfold block_within. cbn [m_a m_b m_size]. lia.
Qed.

Lemma find_longest_match_bounds (alo ahi blo bhi : nat) :
  alo <= ahi -> blo <= bhi ->
  block_within alo ahi blo bhi (find_longest_match a b b2j alo ahi blo bhi).
Proof.
  intros Ha Hb. unfold find_longest_match.
  apply extend_bounds. apply extend_bounds.
  replace ahi with (alo + (ahi - alo)) at 1 by lia.
  apply scan_rows_bounds.
  - lia.
  - intros j. cbn [j2len_lookup]. lia.
  - unfold block_within. cbn [m_a m_b m_size]. lia.
Qed.

End Bounds.

(** *** The queue of [get_matching_blocks] runs empty *)

Section Fuel.

Import Difflib.

Variables a b : list ascii.
Variable b2j : b2j_t.

Lemma queue_cost_cons (alo ahi blo bhi : nat) (queue : list range_t) :
  queue_cost ((alo, ahi, blo, bhi) :: queue)
  = 2 * (ahi - alo) + 1 + queue_cost queue.
Proof. reflexivity. Qed.

Lemma queue_cost_zero (queue : list range_t) :
  queue_cost queue = 0 -> queue = [].
Proof.
  destruct queue as [|[[[alo ahi] blo] bhi] queue]; [reflexivity|].
  rewrite queue_cost_cons. intros H. exfalso. lia.
Qed.

(** Once the fuel covers the cost of the queue, more fuel changes
    nothing: the loop has stopped on an empty queue. *)
Lemma blocks_loop_stable (fuel : nat) :
  forall queue blocks extra,
    Forall range_ok queue ->
    queue_cost queue <= fuel ->
    blocks_loop a b b2j (fuel + extra) queue blocks
    = blocks_loop a b b2j fuel queue blocks.
Proof.
  induction fuel as [|fuel IH]; intros queue blocks extra Hok Hcost.
  - assert (queue = []) as -> by (apply queue_cost_zero; lia).
    destruct extra; reflexivity.
  - cbn [Nat.add blocks_loop].
    destruct queue as [|[[[alo ahi] blo] bhi] queue]; [reflexivity|].
    inversion Hok as [|? ? Hr Hok']; subst.
    destruct Hr as [Ha Hb].
    pose proof (find_longest_match_bounds a b b2j alo ahi blo bhi Ha Hb)
      as (B1 & B2 & B3 & B4).
    set (x := find_longest_match a b b2j alo ahi blo bhi) in *.
    rewrite queue_cost_cons in Hcost.
    destruct (m_size x =? 0) eqn:Ek.
    + apply IH; [exact Hok' | lia].
    + apply Nat.eqb_neq in Ek.
      apply IH.
      * destruct ((m_a x + m_size x <? ahi) && (m_b x + m_size x <? bhi));
          destruct ((alo <? m_a x) && (blo <? m_b x));
          repeat (constructor; [unfold range_ok; lia|]); exact Hok'.
      * destruct ((m_a x + m_size x <? ahi) && (m_b x + m_size x <? bhi));
          destruct ((alo <? m_a x) && (blo <? m_b x));
          rewrite ?queue_cost_cons; lia.
Qed.

End Fuel.

(** The fuel [get_matching_blocks] gives its loop is enough. *)
Lemma blocks_loop_fuel (a b : list ascii) (extra : nat) :
  Difflib.blocks_loop a b (Difflib.chain_b b)
    (2 * List.length a + 1 + extra) [(0, List.length a, 0, List.length b)] []
  = Difflib.blocks_loop a b (Difflib.chain_b b)
      (2 * List.length a + 1) [(0, List.length a, 0, List.length b)] [].
Proof.
  apply blocks_loop_stable.
  - constructor; [unfold range_ok; lia | constructor].
  - rewrite queue_cost_cons. unfold queue_cost. simpl. lia.
Qed.

(** *** The number of matched elements *)

Section Matches.

Import Difflib.

Lemma total_size_app (l1 l2 : list Match) :
  total_size (l1 ++ l2) = total_size l1 + total_size l2.
Proof. unfold total_size. now rewrite map_app, list_sum_app. Qed.

Lemma total_size_insert_sorted (x : Match) (l : list Match) :
  total_size (insert_sorted x l) = m_size x + total_size l.
Proof.
  induction l as [|y l IH]; simpl; [reflexivity|].
  destruct (match_leb x y); [reflexivity|].
  unfold total_size in *. simpl. rewrite IH. lia.
Qed.

(** Sorting keeps the total size ... *)
Lemma total_size_sort_blocks (l : list Match) :
  total_size (sort_blocks l) = total_size l.
Proof.
  induction l as [|x l IH]; simpl; [reflexivity|].
  rewrite total_size_insert_sorted, IH. reflexivity.
Qed.

(** ... and so does merging adjacent blocks. *)
Lemma total_size_collapse_loop (blocks : list Match) :
  forall cur non_adjacent,
    total_size (fst (collapse_loop blocks cur non_adjacent))
    + m_size (snd (collapse_loop blocks cur non_adjacent))
    = total_size non_adjacent + m_size cur + total_size blocks.
Proof.
  induction blocks as [|x blocks IH]; intros cur na; simpl.
  - unfold total_size. simpl. lia.
  - destruct ((m_a cur + m_size cur =? m_a x)
              && (m_b cur + m_size cur =? m_b x)).
    + rewrite IH. unfold total_size. simpl. lia.
    + rewrite IH. destruct (m_size cur =? 0) eqn:E.
      * apply Nat.eqb_eq in E. unfold total_size. simpl. lia.
      * rewrite total_size_app. unfold total_size. simpl. lia.
Qed.

(** [ratio] therefore sums the blocks as the loop found them. *)
Lemma total_size_get_matching_blocks (a b : list ascii) :
  total_size (get_matching_blocks a b)
  = total_size
      (blocks_loop a b (chain_b b) (2 * List.length a + 1)
         [(0, List.length a, 0, List.length b)] []).
Proof.
  unfold get_matching_blocks.
  set (raw := blocks_loop a b (chain_b b) (2 * List.length a + 1)
                [(0, List.length a, 0, List.length b)] []).
  pose proof (total_size_collapse_loop (sort_blocks raw) (mkMatch 0 0 0) [])
    as H.
  destruct (collapse_loop (sort_blocks raw) (mkMatch 0 0 0) [])
    as [na cur].
  cbn [fst snd m_size] in H. rewrite total_size_sort_blocks in H.
  rewrite total_size_app.
  destruct (m_size cur =? 0) eqn:E.
  - apply Nat.eqb_eq in E. unfold total_size in *. simpl in *. lia.
  - rewrite total_size_app. unfold total_size in *. simpl in *. lia.
Qed.

Lemma ratio_chars_total (a b : list ascii) :
  ratio_chars a b
  = calculate_ratio
      (total_size
         (blocks_loop a b (chain_b b) (2 * List.length a + 1)
            [(0, List.length a, 0, List.length b)] []))
      (List.length a + List.length b).
Proof.
  unfold ratio_chars. fold (total_size (get_matching_blocks a b)).
  now rewrite total_size_get_matching_blocks.
Qed.

(** When the first search finds nothing, nothing matches. *)
Lemma blocks_loop_nothing (a b : list ascii) :
  m_size (find_longest_match a b (chain_b b)
            0 (List.length a) 0 (List.length b)) = 0 ->
  blocks_loop a b (chain_b b) (2 * List.length a + 1)
    [(0, List.length a, 0, List.length b)] [] = [].
Proof.
  intros H. rewrite Nat.add_1_r. cbn [blocks_loop]. rewrite H.
  cbn [Nat.eqb]. destruct (2 * List.length a); reflexivity.
Qed.

(** When the first search covers both sequences, that block is all. *)
Lemma blocks_loop_everything (a b : list ascii) (n : nat) :
  List.length a = n -> List.length b = n -> 0 < n ->
  find_longest_match a b (chain_b b) 0 n 0 n = mkMatch 0 0 n ->
  blocks_loop a b (chain_b b) (2 * List.length a + 1)
    [(0, List.length a, 0, List.length b)] [] = [mkMatch 0 0 n].
Proof.
  intros Ha Hb Hn H. rewrite Ha, Hb, Nat.add_1_r.
  cbn [blocks_loop]. rewrite H. cbn [m_a m_b m_size].
  destruct (n =? 0) eqn:E; [apply Nat.eqb_eq in E; lia|].
  rewrite Nat.ltb_irrefl. cbn [andb Nat.add].
  rewrite Nat.ltb_irrefl. cbn [andb app].
  destruct (2 * n); reflexivity.
Qed.

End Matches.

(** *** Sequences without a common element *)

Section Disjoint.

Import Difflib.

Variables a b : list ascii.
Hypothesis Hdisjoint : disjoint a b.

Lemma same_at_disjoint (keep : ascii -> bool) (i j : nat) :
  same_at keep a b i j = false.
Proof.
  unfold same_at.
  destruct (nth_error a i) as [x|] eqn:Ea; [|reflexivity].
  destruct (nth_error b j) as [y|] eqn:Eb; [|reflexivity].
  destruct (Ascii.eqb_spec x y) as [->|Hne]; [|apply andb_false_r].
  exfalso. apply (Hdisjoint y); eapply nth_error_In; eassumption.
Qed.

Lemma extend_left_disjoint (keep : ascii -> bool)
    (alo blo besti bestj size : nat) :
  extend_left keep a b alo blo besti bestj size = mkMatch besti bestj size.
Proof.
  destruct besti as [|i]; [reflexivity|].
  destruct bestj as [|j]; [reflexivity|].
  cbn [extend_left]. rewrite same_at_disjoint, andb_false_r. reflexivity.
Qed.

Lemma extend_right_disjoint (keep : ascii -> bool)
    (ahi bhi besti bestj size fuel : nat) :
  extend_right keep a b ahi bhi besti bestj size fuel = size.
Proof.
  destruct fuel as [|fuel]; [reflexivity|].
  cbn [extend_right]. rewrite same_at_disjoint, andb_false_r. reflexivity.
Qed.

Lemma extend_disjoint (keep : ascii -> bool) (alo ahi blo bhi : nat)
    (m : Match) :
  extend keep a b alo ahi blo bhi m = m.
Proof.
  unfold extend. rewrite extend_left_disjoint. cbn [m_a m_b m_size].
  rewrite extend_right_disjoint. destruct m; reflexivity.
Qed.

Lemma b2j_get_disjoint (x : ascii) :
  In x a -> b2j_get (chain_b b) x = [].
Proof.
  intros Hx. destruct (b2j_get (chain_b b) x) as [|j js] eqn:E;
    [reflexivity|].
  exfalso. apply (Hdisjoint x Hx).
  apply (nth_error_In b j). apply chain_b_sound. rewrite E. left. reflexivity.
Qed.

Lemma scan_rows_disjoint (blo bhi : nat) (rows : list nat) :
  forall t best, scan_rows a (chain_b b) blo bhi rows t best = best.
Proof.
  induction rows as [|i rows IH]; intros t best; [reflexivity|].
  cbn [scan_rows].
  destruct (nth_error a i) as [x|] eqn:E.
  - rewrite b2j_get_disjoint by (eapply nth_error_In; eassumption).
    cbn [row_loop]. apply IH.
  - cbn [row_loop]. apply IH.
Qed.

Lemma find_longest_match_disjoint (alo ahi blo bhi : nat) :
  find_longest_match a b (chain_b b) alo ahi blo bhi = mkMatch alo blo 0.
Proof.
  unfold find_longest_match.
  now rewrite scan_rows_disjoint, !extend_disjoint.
Qed.

(** Nothing matches: the score is [2.0 * 0 / length]. *)
Lemma ratio_chars_disjoint :
  ratio_chars a b = calculate_ratio 0 (List.length a + List.length b).
Proof.
  rewrite ratio_chars_total, blocks_loop_nothing; [reflexivity|].
  now rewrite find_longest_match_disjoint.
Qed.

End Disjoint.

Lemma disjoint_sym (a b : list ascii) : disjoint a b -> disjoint b a.
Proof. intros H x Hb Ha. exact (H x Ha Hb). Qed.

Lemma calculate_ratio_zero (length : nat) :
  length <> 0 -> Difflib.calculate_ratio 0 length = 0%Q.
Proof.
  intros H. unfold Difflib.calculate_ratio.
  destruct (length =? 0) eqn:E; [apply Nat.eqb_eq in E; contradiction|].
  reflexivity.
Qed.

(** *** A sequence against itself *)

Section Identity.

Import Difflib.

Variable s : list ascii.

Lemma run_le (i : nat) : run s i <= i.
Proof.
  induction i as [|i IH]; simpl; [lia|].
  destruct (nth_error s i) as [x|]; [|lia].
  destruct (popular s x); lia.
Qed.

Lemma run_kept (i : nat) (x : ascii) :
  nth_error s i = Some x -> popular s x = false -> run s (S i) = S (run s i).
Proof. intros H1 H2. cbn [run]. now rewrite H1, H2. Qed.

Lemma run_popular (i : nat) (x : ascii) :
  nth_error s i = Some x -> popular s x = true -> run s (S i) = 0.
Proof. intros H1 H2. cbn [run]. now rewrite H1, H2. Qed.

Lemma lookup_row_table_other (t : j2len_t) (js : list nat) (j' : nat) :
  ~ In j' js ->
  forall nt, j2len_lookup (row_table t js nt) j' = j2len_lookup nt j'.
Proof.
  unfold row_table.
  induction js as [|j js IH]; intros Hnot nt; simpl; [reflexivity|].
  rewrite IH by (intros H; apply Hnot; right; exact H).
  simpl. destruct (Nat.eqb_spec j j') as [->|_]; [|reflexivity].
  exfalso. apply Hnot. left. reflexivity.
Qed.

Lemma Forall_row_table (P : nat * nat -> Prop) (t : j2len_t)
    (js : list nat) :
  (forall j, In j js -> P (j, j2lenget_pred t j + 1)) ->
  forall nt, Forall P nt -> Forall P (row_table t js nt).
Proof.
  unfold row_table.
  induction js as [|j js IH]; intros Hjs nt Hnt; simpl; [exact Hnt|].
  apply IH.
  - intros j' Hj'. apply Hjs. right. exact Hj'.
  - constructor; [apply Hjs; left; reflexivity | exact Hnt].
Qed.

Lemma lookup_Forall (bound : nat) (t : j2len_t) :
  Forall (fun e => snd e <= bound /\ snd e <= run s (S (fst e))) t ->
  forall j, j2len_lookup t j <= bound /\ j2len_lookup t j <= run s (S j).
Proof.
  induction t as [|[j' k] t IH]; intros H j; simpl; [lia|].
  inversion H as [|? ? [H1 H2] H']; subst. simpl in H1, H2.
  destruct (Nat.eqb_spec j' j) as [->|_]; [lia | now apply IH].
Qed.

(** Columns whose run cannot beat the best block leave it alone. *)
Lemma row_loop_quiet (i : nat) (t : j2len_t) (best : Match)
    (js rest : list nat) :
  (forall j, In j js -> j < List.length s) ->
  (forall j, In j js -> j2lenget_pred t j + 1 <= m_size best) ->
  forall nt,
    row_loop i 0 (List.length s) t (js ++ rest) nt best
    = row_loop i 0 (List.length s) t rest (row_table t js nt) best.
Proof.
  induction js as [|j js IH]; intros Hlt Hle nt; [reflexivity|].
  cbn [app row_loop].
  replace (j <? 0) with false by (symmetry; apply Nat.ltb_ge; lia).
  destruct (Nat.leb_spec (List.length s) j) as [H|_].
  - exfalso. specialize (Hlt j (or_introl eq_refl)). lia.
  - destruct (Nat.ltb_spec (m_size best) (j2lenget_pred t j + 1)) as [H|_].
    + exfalso. specialize (Hle j (or_introl eq_refl)). lia.
    + apply IH; intros j' Hj'; [apply Hlt | apply Hle]; right; exact Hj'.
Qed.

(** The value of a new entry in row [i] and column [j], both holding the
    kept element [x]. *)
Lemma entry_bounds (i j : nat) (x : ascii) (t : j2len_t) :
  nth_error s i = Some x -> nth_error s j = Some x ->
  popular s x = false ->
  table_run s i t ->
  j2lenget_pred t j + 1 <= run s (S i)
  /\ j2lenget_pred t j + 1 <= run s (S j).
Proof.
  intros Hi Hj Hx Ht.
  rewrite (run_kept i x Hi Hx), (run_kept j x Hj Hx).
  destruct j as [|j']; cbn [j2lenget_pred]; [lia|].
  destruct (Ht j') as [H1 H2]. lia.
Qed.

Lemma entry_diag (i : nat) (x : ascii) (t : j2len_t) :
  nth_error s i = Some x -> popular s x = false ->
  diag_ok s i t ->
  j2lenget_pred t i + 1 = run s (S i).
Proof.
  intros Hi Hx Hd. rewrite (run_kept i x Hi Hx).
  destruct i as [|i']; cbn [j2lenget_pred]; [reflexivity|].
  rewrite (Hd i' eq_refl). lia.
Qed.

(** One row of the scan keeps the three invariants. *)
Lemma row_loop_identity (i : nat) (x : ascii) (t : j2len_t) (best : Match) :
  nth_error s i = Some x ->
  table_run s i t -> diag_ok s i t -> best_ok s i best ->
  let r := row_loop i 0 (List.length s) t (b2j_get (chain_b s) x) [] best in
  table_run s (S i) (fst r)
  /\ diag_ok s (S i) (fst r)
  /\ best_ok s (S i) (snd r).
Proof.
  intros Hi Ht Hd (Hb1 & Hb2 & Hb3). rewrite get_chain_b.
  destruct (popular s x) eqn:Hx.
  - (* the element is not in the index: the row is empty *)
    cbn [row_loop fst snd]. split; [|split].
    + intros j. cbn [j2len_lookup]. lia.
    + intros i' Heq. injection Heq as Heq. subst i'.
      cbn [j2len_lookup]. now rewrite (run_popular i x Hi Hx).
    + split; [exact Hb1|]. split; [lia|].
      intros i' Hi'. destruct (Nat.eq_dec i' i) as [->|Hne].
      * rewrite (run_popular i x Hi Hx). lia.
      * apply Hb3. lia.
  - assert (Hin : In i (positions s x 0))
      by (apply positions_spec; rewrite Nat.sub_0_r; split; [lia | exact Hi]).
    destruct (positions_split s x 0 i Hin) as (l1 & l2 & E & Hl1 & Hl2).
    assert (Hpos : forall j, In j (l1 ++ i :: l2) -> nth_error s j = Some x).
    { intros j Hj. rewrite <- E in Hj. apply positions_spec in Hj.
      rewrite Nat.sub_0_r in Hj. tauto. }
    assert (Hlen : forall j, In j (l1 ++ i :: l2) -> j < List.length s).
    { intros j Hj. apply nth_error_Some. rewrite (Hpos j Hj). discriminate. }
    rewrite Forall_forall in Hl1, Hl2.
    rewrite E.
    (* the columns before the diagonal *)
    rewrite row_loop_quiet.
    2:{ intros j Hj. apply Hlen. apply in_or_app. left. exact Hj. }
    2:{ intros j Hj.
        assert (Hjx : nth_error s j = Some x)
          by (apply Hpos; apply in_or_app; left; exact Hj).
        destruct (entry_bounds i j x t Hi Hjx Hx Ht) as [_ H].
        specialize (Hb3 j (Hl1 j Hj)). lia. }
    (* the diagonal *)
    cbn [row_loop].
    replace (i <? 0) with false by (symmetry; apply Nat.ltb_ge; lia).
    assert (Hilen : i < List.length s)
      by (apply Hlen; apply in_or_app; right; left; reflexivity).
    destruct (Nat.leb_spec (List.length s) i) as [H|_]; [lia|].
    rewrite (entry_diag i x t Hi Hx Hd).
    set (k := run s (S i)).
    set (best' := if m_size best <? k
                  then mkMatch (i + 1 - k) (i + 1 - k) k else best).
    assert (Hk : k <= S i) by apply run_le.
    assert (Hbest' : m_a best' = m_b best'
                     /\ m_a best' + m_size best' <= S i
                     /\ m_size best <= m_size best'
                     /\ k <= m_size best').
    { unfold best'. destruct (Nat.ltb_spec (m_size best) k);
        cbn [m_a m_b m_size]; lia. }
    destruct Hbest' as (D1 & D2 & D3 & D4).
    (* the columns after the diagonal *)
    rewrite <- (app_nil_r l2). rewrite row_loop_quiet.
    2:{ intros j Hj. apply Hlen. apply in_or_app. right. right. exact Hj. }
    2:{ intros j Hj.
        assert (Hjx : nth_error s j = Some x)
          by (apply Hpos; apply in_or_app; right; right; exact Hj).
        destruct (entry_bounds i j x t Hi Hjx Hx Ht) as [H _].
        fold k in H. lia. }
    cbn [row_loop fst snd]. split; [|split].
    + intros j0. apply (lookup_Forall (run s (S i))). apply Forall_row_table.
      * intros j Hj. cbn [fst snd].
        apply (entry_bounds i j x t Hi); auto.
        apply Hpos. apply in_or_app. right. right. exact Hj.
      * constructor.
        -- cbn [fst snd]. fold k. split; [lia | reflexivity].
        -- apply Forall_row_table; [|constructor].
           intros j Hj. cbn [fst snd].
           apply (entry_bounds i j x t Hi); auto.
           apply Hpos. apply in_or_app. left. exact Hj.
    + intros i' Heq. injection Heq as Heq. subst i'.
      rewrite lookup_row_table_other.
      * cbn [j2len_lookup]. now rewrite Nat.eqb_refl.
      * intros H. specialize (Hl2 i H). lia.
    + split; [exact D1|]. split; [exact D2|].
      intros i' Hi'. destruct (Nat.eq_dec i' i) as [->|Hne].
      * exact D4.
      * specialize (Hb3 i'). lia.
Qed.

Lemma scan_rows_identity (cnt : nat) :
  forall i t best,
    i + cnt = List.length s ->
    table_run s i t -> diag_ok s i t -> best_ok s i best ->
    best_ok s (List.length s)
      (scan_rows s (chain_b s) 0 (List.length s) (seq i cnt) t best).
Proof.
  induction cnt as [|cnt IH]; intros i t best Hlen Ht Hd Hb.
  - cbn [seq scan_rows]. now replace (List.length s) with i by lia.
  - cbn [seq scan_rows].
    destruct (nth_error s i) as [x|] eqn:Hi.
    + pose proof (row_loop_identity i x t best Hi Ht Hd Hb) as H.
      cbv zeta in H.
      destruct (row_loop i 0 (List.length s) t (b2j_get (chain_b s) x) []
                  best) as [nt best'].
      destruct H as (H1 & H2 & H3). apply IH; auto. lia.
    + apply nth_error_None in Hi. lia.
Qed.

Lemma same_at_diagonal (i : nat) :
  i < List.length s ->
  same_at (fun y => negb (isbjunk y)) s s i i = true.
Proof.
  intros H. unfold same_at.
  destruct (nth_error s i) as [x|] eqn:E.
  - simpl. apply Ascii.eqb_refl.
  - apply nth_error_None in E. lia.
Qed.

Lemma extend_left_diagonal (p : nat) :
  forall size,
    p <= List.length s ->
    extend_left (fun y => negb (isbjunk y)) s s 0 0 p p size
    = mkMatch 0 0 (size + p).
Proof.
  induction p as [|p IH]; intros size Hp; cbn [extend_left].
  - now rewrite Nat.add_0_r.
  - rewrite same_at_diagonal by lia. cbn [Nat.ltb Nat.leb andb].
    rewrite IH by lia. f_equal. lia.
Qed.

Lemma extend_right_diagonal (fuel : nat) :
  forall size,
    size + fuel = List.length s ->
    extend_right (fun y => negb (isbjunk y)) s s
      (List.length s) (List.length s) 0 0 size fuel
    = List.length s.
Proof.
  induction fuel as [|fuel IH]; intros size H; cbn [extend_right].
  - lia.
  - cbn [Nat.add].
    destruct (Nat.ltb_spec size (List.length s)) as [Hlt|Hge]; [|lia].
    rewrite same_at_diagonal by exact Hlt. cbn [andb].
    apply IH. lia.
Qed.

(** The longest match of a sequence with itself is the whole of it. *)
Lemma find_longest_match_identity :
  find_longest_match s s (chain_b s) 0 (List.length s) 0 (List.length s)
  = mkMatch 0 0 (List.length s).
Proof.
  unfold find_longest_match.
  rewrite Nat.sub_0_r.
  pose proof (scan_rows_identity (List.length s) 0 [] (mkMatch 0 0 0)) as H.
  destruct H as (H1 & H2 & _).
  - reflexivity.
  - intros j. simpl. lia.
  - intros i' [=].
  - unfold best_ok. cbn [m_a m_b m_size]. split; [reflexivity|].
    split; [lia|]. intros i' Hi'. lia.
  - set (best := scan_rows s (chain_b s) 0 (List.length s)
                   (seq 0 (List.length s)) [] (mkMatch 0 0 0)) in *.
    assert (E1 : extend (fun y => negb (isbjunk y)) s s
                   0 (List.length s) 0 (List.length s) best
                 = mkMatch 0 0 (List.length s)).
    { unfold extend. rewrite <- H1.
      rewrite extend_left_diagonal by lia. cbn [m_a m_b m_size].
      rewrite extend_right_diagonal by lia. reflexivity. }
    rewrite E1. unfold extend. cbn [extend_left m_a m_b m_size Nat.add].
    rewrite Nat.sub_diag. reflexivity.
Qed.

End Identity.

(** *** The score *)

Section Score.

Local Open Scope string_scope.

Lemma calculate_ratio_full (n : nat) :
  0 < n -> Difflib.calculate_ratio n (n + n) = 1%Q.
Proof.
  intros Hn. unfold Difflib.calculate_ratio.
  destruct (Nat.eqb_spec (n + n) 0) as [E|NE]; [lia|].
  change 1%Q with (Qred 1). apply Qred_complete.
  unfold Qeq. cbn [Qnum Qden].
  rewrite <- (positive_nat_Z (Pos.of_nat (n + n))), Nat2Pos.id by exact NE.
  rewrite Z.mul_1_r, Z.mul_1_l. f_equal. lia.
Qed.

Lemma ratio_chars_identity (s : list ascii) :
  s <> [] -> Difflib.ratio_chars s s = 1%Q.
Proof.
  intros Hs.
  assert (Hn : 0 < List.length s) by (destruct s; [congruence | simpl; lia]).
  rewrite ratio_chars_total.
  rewrite (blocks_loop_everything s s (List.length s) eq_refl eq_refl Hn
             (find_longest_match_identity s)).
  unfold total_size. cbn [map list_sum fold_right Difflib.m_size].
  rewrite Nat.add_0_r. now apply calculate_ratio_full.
Qed.

Lemma chars_nonempty (s : string) :
  s <> "" -> list_ascii_of_string s <> [].
Proof. destruct s; [congruence | discriminate]. Qed.

Lemma length_chars (s : string) :
  List.length (list_ascii_of_string s) = String.length s.
Proof. induction s as [|c s IH]; simpl; [reflexivity | now rewrite IH]. Qed.

Lemma ratio_disjoint (a b : string) :
  no_common_char a b ->
  Difflib.ratio a b
  = Difflib.calculate_ratio 0 (String.length a + String.length b).
Proof.
  intros H. unfold Difflib.ratio. rewrite (ratio_chars_disjoint _ _ H).
  now rewrite !length_chars.
Qed.

(** C7: a non-empty string scores exactly [1.0] against itself, and two
    non-empty strings without a common character score [0.0]. *)
Theorem ratio_identity_and_disjoint :
  (forall s, s <> "" -> Difflib.ratio s s = 1%Q)
  /\ (forall a b,
        a <> "" -> b <> "" -> no_common_char a b ->
        Difflib.ratio a b = 0%Q).
Proof.
  split.
  - intros s Hs. apply ratio_chars_identity. now apply chars_nonempty.
  - intros a b Ha Hb H. rewrite (ratio_disjoint a b H).
    apply calculate_ratio_zero. destruct a; [congruence | simpl; lia].
Qed.

Lemma no_common_char_abc_xyz : no_common_char "abc" "xyz".
Proof.
  intros x Ha Hb. simpl in Ha, Hb.
  repeat match goal with
         | H : _ \/ _ |- _ => destruct H
         | H : False |- _ => destruct H
         end; subst; discriminate.
Qed.

Lemma ratio_identity_and_disjoint_witness :
  Difflib.ratio "what are your hours?" "what are your hours?" = 1%Q
  /\ Difflib.ratio "abc" "xyz" = 0%Q.
Proof.
  split.
  - apply (proj1 ratio_identity_and_disjoint). discriminate.
  - apply (proj2 ratio_identity_and_disjoint);
      [discriminate | discriminate | exact no_common_char_abc_xyz].
Defined.

(** C6 as it is worded fails: [SequenceMatcher] takes the first longest
    block it meets, which depends on the order of its arguments. *)
Lemma ratio_not_symmetric :
  Difflib.ratio "tide" "diet" = (1 # 4)%Q
  /\ Difflib.ratio "diet" "tide" = (1 # 2)%Q
  /\ ~ (Difflib.ratio "tide" "diet" == Difflib.ratio "diet" "tide")%Q.
Proof.
  split; [vm_compute; reflexivity|].
  split; [vm_compute; reflexivity|].
  vm_compute. discriminate.
Qed.

(** C6, as far as it holds: the score does not depend on the order of the
    arguments when the two strings are equal or have no character in
    common. *)
Theorem ratio_symmetric_cases (a b : string) :
  a = b \/ no_common_char a b ->
  Difflib.ratio a b = Difflib.ratio b a.
Proof.
  intros [->|H]; [reflexivity|].
  rewrite (ratio_disjoint a b H).
  rewrite (ratio_disjoint b a) by (apply disjoint_sym; exact H).
  now rewrite Nat.add_comm.
Qed.

Lemma ratio_symmetric_cases_witness :
  Difflib.ratio "abc" "xyz" = Difflib.ratio "xyz" "abc".
Proof.
  apply ratio_symmetric_cases. right. exact no_common_char_abc_xyz.
Defined.

End Score.

(* ================================================================== *)
(** * Further properties of the commands *)
(* ================================================================== *)

Section Permissions.

Variable OWNER_ID : Z.

(** X2: a caller who does not pass the check changes nothing and nothing
    is saved, whatever the command and its arguments. *)
Theorem refused_command_changes_nothing (st : Bot.State)
    (c : Session.Command) :
  caller_allowed OWNER_ID c = false ->
  Session.step OWNER_ID st c = (st, []).
Proof.
  destruct c; simpl; intros H;
    unfold Bot.faq_add, Bot.faq_remove, Bot.prefix_faq_add,
      Bot.prefix_faq_remove, Commands.set_faq_channel,
      Commands.disable_faq_channel, Bot.set_threshold;
    rewrite H; reflexivity.
Qed.

End Permissions.

Lemma refused_command_changes_nothing_witness :
  Session.step an_owner_id a_store (Session.FaqRemove a_member "hello")
  = (a_store, []).
Proof.
  apply (refused_command_changes_nothing an_owner_id). reflexivity.
Defined.

(** ** What the commands keep and what they save *)

Section Invariants.

Variable OWNER_ID : Z.

Lemma keys_setitem (d : Dict.t) (k v : string) :
  Dict.keys (Dict.setitem d k v)
  = if Dict.contains d k then Dict.keys d else Dict.keys d ++ [k].
Proof.
  induction d as [|[k' v'] d IH]; simpl; [reflexivity|].
  destruct (String.eqb k' k); simpl; [reflexivity|].
  rewrite IH. destruct (Dict.contains d k); reflexivity.
Qed.

Lemma wf_setitem (d : Dict.t) (k v : string) :
  Dict.wf d -> Dict.wf (Dict.setitem d k v).
Proof.
  unfold Dict.wf. intros H. rewrite keys_setitem.
  destruct (Dict.contains d k) eqn:E; [exact H|].
  apply NoDup_app; [exact H | repeat constructor; intros [] |].
  intros x Hx [<-|[]]. apply contains_In in Hx. congruence.
Qed.

Lemma keys_delitem_incl (d : Dict.t) (k x : string) :
  In x (Dict.keys (Dict.delitem d k)) -> In x (Dict.keys d).
Proof.
  induction d as [|[k' v'] d IH]; simpl; [tauto|].
  destruct (String.eqb k' k); simpl; [tauto|].
  intros [H|H]; auto.
Qed.

Lemma wf_delitem (d : Dict.t) (k : string) :
  Dict.wf d -> Dict.wf (Dict.delitem d k).
Proof.
  unfold Dict.wf. induction d as [|[k' v'] d IH]; simpl; [auto|].
  intros H. inversion H as [|? ? Hnot Hnd]; subst.
  destruct (String.eqb k' k); simpl; [exact Hnd|].
  constructor; [|now apply IH].
  intros Hin. apply Hnot. eapply keys_delitem_incl. exact Hin.
Qed.

Lemma mem_In (x : Z) (l : list Z) : Commands.mem x l = true <-> In x l.
Proof. apply existsb_channel. Qed.

Lemma remove_first_incl (x y : Z) (l : list Z) :
  In y (Commands.remove_first x l) -> In y l.
Proof.
  induction l as [|z l IH]; simpl; [tauto|].
  destruct (z =? x)%Z; simpl; [tauto|]. intros [H|H]; auto.
Qed.

Lemma NoDup_remove_first (x : Z) (l : list Z) :
  NoDup l -> NoDup (Commands.remove_first x l).
Proof.
  induction l as [|z l IH]; simpl; [auto|].
  intros H. inversion H as [|? ? Hnot Hnd]; subst.
  destruct (z =? x)%Z; [exact Hnd|].
  constructor; [|now apply IH].
  intros Hin. apply Hnot. eapply remove_first_incl. exact Hin.
Qed.

Lemma remove_first_gone (x : Z) (l : list Z) :
  NoDup l -> ~ In x (Commands.remove_first x l).
Proof.
  induction l as [|z l IH]; simpl; [tauto|].
  intros H. inversion H as [|? ? Hnot Hnd]; subst.
  destruct (Z.eqb_spec z x) as [->|NE]; [exact Hnot|].
  intros [E|Hin]; [congruence | now apply IH].
Qed.

Lemma remove_first_last (x : Z) (l : list Z) :
  ~ In x l -> Commands.remove_first x (l ++ [x]) = l.
Proof.
  induction l as [|z l IH]; simpl; intros H.
  - now rewrite Z.eqb_refl.
  - destruct (Z.eqb_spec z x) as [->|NE]; [tauto|].
    rewrite IH; tauto.
Qed.

Lemma wf_remove_body (st : Bot.State) (question : string) :
  Dict.wf (Bot.faqs st) ->
  Dict.wf (Bot.faqs (fst (Bot.remove_body st question))).
Proof.
  intros H. unfold Bot.remove_body.
  destruct (Dict.contains (Bot.faqs st) question); simpl.
  - now apply wf_delitem.
  - destruct (Bot.find_normalized (Dict.keys (Bot.faqs st)) question)
      as [k|]; [|exact H].
    destruct (Py.truthy k); simpl; [now apply wf_delitem | exact H].
Qed.

Lemma remove_body_config (st : Bot.State) (question : string) :
  Bot.config (fst (Bot.remove_body st question)) = Bot.config st.
Proof.
  unfold Bot.remove_body.
  destruct (Dict.contains (Bot.faqs st) question); [reflexivity|].
  destruct (Bot.find_normalized (Dict.keys (Bot.faqs st)) question)
    as [k|]; [|reflexivity].
  destruct (Py.truthy k); reflexivity.
Qed.

Lemma default_threshold_ok : in_unit_interval Bot.DEFAULT_SIMILARITY_THRESHOLD.
Proof. split; vm_compute; discriminate. Qed.

(** One command keeps [state_ok]. *)
Lemma step_state_ok (st : Bot.State) (c : Session.Command) :
  state_ok st -> state_ok (fst (Session.step OWNER_ID st c)).
Proof.
  intros (Hwf & Hch & Hth).
  assert (Hst : state_ok st) by (unfold state_ok; auto).
  destruct c as [u q a | u q | ctx q a | ctx q | u ch | u ch | u v];
    cbn [Session.step].
  - unfold Bot.faq_add.
    destruct (Bot.admin_check OWNER_ID u); cbn [negb fst]; [|exact Hst].
    destruct (Dict.contains (Bot.faqs st) (Text.normalize_text q));
      cbn [fst]; [exact Hst|].
    split; [now apply wf_setitem | split; assumption].
  - unfold Bot.faq_remove.
    destruct (Bot.admin_check OWNER_ID u); cbn [negb fst]; [|exact Hst].
    pose proof (wf_remove_body st q Hwf) as H1.
    pose proof (remove_body_config st q) as H2.
    destruct (Bot.remove_body st q) as [st' es]. cbn [fst] in *.
    unfold state_ok. rewrite H2. auto.
  - unfold Bot.prefix_faq_add.
    destruct (Bot.check_any ctx); cbn [negb fst]; [|exact Hst].
    destruct (Dict.contains (Bot.faqs st) q); cbn [fst]; [exact Hst|].
    split; [now apply wf_setitem | split; assumption].
  - unfold Bot.prefix_faq_remove.
    destruct (Bot.check_any ctx); cbn [negb fst]; [|exact Hst].
    pose proof (wf_remove_body st q Hwf) as H1.
    pose proof (remove_body_config st q) as H2.
    destruct (Bot.remove_body st q) as [st' es]. cbn [fst] in *.
    unfold state_ok. rewrite H2. auto.
  - unfold Commands.set_faq_channel.
    destruct (Bot.admin_check OWNER_ID u); cbn [negb fst]; [|exact Hst].
    destruct (Commands.mem ch (Bot.get_faq_channels (Bot.config st))) eqn:E;
      cbn [fst]; [exact Hst|].
    split; [exact Hwf|]. split; [|exact Hth].
    cbn. apply NoDup_app; [exact Hch | repeat constructor; intros [] |].
    intros x Hx [<-|[]]. apply mem_In in Hx. congruence.
  - unfold Commands.disable_faq_channel.
    destruct (Bot.admin_check OWNER_ID u); cbn [negb fst]; [|exact Hst].
    destruct (Commands.mem ch (Bot.get_faq_channels (Bot.config st)));
      cbn [negb fst]; [|exact Hst].
    split; [exact Hwf|]. split; [|exact Hth].
    cbn. now apply NoDup_remove_first.
  - unfold Bot.set_threshold.
    destruct (Bot.admin_check OWNER_ID u); cbn [negb fst]; [|exact Hst].
    destruct (Qle_bool 0 v && Qle_bool v 1) eqn:E; cbn [negb fst];
      [|exact Hst].
    split; [exact Hwf|]. split; [exact Hch|].
    cbn. now apply in_unit_interval_test.
Qed.

(** X3: the state the bot starts from when no document exists is sound,
    and every sequence of commands, by whatever callers and with whatever
    arguments, leaves a sound state: no question and no channel is stored
    twice and the threshold stays in [0, 1]. *)
Theorem commands_keep_state_ok :
  state_ok fresh_state
  /\ forall st cs, state_ok st -> state_ok (Session.steps OWNER_ID st cs).
Proof.
  split.
  - split; [constructor|]. split; [constructor | exact default_threshold_ok].
  - intros st cs. revert st.
    induction cs as [|c cs IH]; intros st H; simpl; [exact H|].
    apply IH. now apply step_state_ok.
Qed.

(** X4: saving follows changing.  A command either leaves both stores
    as they are and saves nothing, or it saves exactly one document, the
    one it has changed, with the content the store now has. *)
Theorem command_saves_what_it_changes (st : Bot.State)
    (c : Session.Command) :
  let st' := fst (Session.step OWNER_ID st c) in
  let saved := snd (Session.step OWNER_ID st c) in
  (st' = st /\ saved = [])
  \/ (saved = [Session.WroteFaqs (Bot.faqs st')]
      /\ Bot.config st' = Bot.config st)
  \/ (saved = [Session.WroteConfig (Bot.config st')]
      /\ Bot.faqs st' = Bot.faqs st).
Proof.
  destruct c as [u q a | u q | ctx q a | ctx q | u ch | u ch | u v];
    cbn [Session.step].
  - unfold Bot.faq_add.
    destruct (Bot.admin_check OWNER_ID u); cbn; auto.
    destruct (Dict.contains (Bot.faqs st) (Text.normalize_text q)); cbn; auto.
  - unfold Bot.faq_remove, Bot.remove_body.
    destruct (Bot.admin_check OWNER_ID u); cbn; auto.
    destruct (Dict.contains (Bot.faqs st) q); cbn; auto.
    destruct (Bot.find_normalized (Dict.keys (Bot.faqs st)) q) as [k|];
      cbn; auto.
    destruct (Py.truthy k); cbn; auto.
  - unfold Bot.prefix_faq_add.
    destruct (Bot.check_any ctx); cbn; auto.
    destruct (Dict.contains (Bot.faqs st) q); cbn; auto.
  - unfold Bot.prefix_faq_remove, Bot.remove_body.
    destruct (Bot.check_any ctx); cbn; auto.
    destruct (Dict.contains (Bot.faqs st) q); cbn; auto.
    destruct (Bot.find_normalized (Dict.keys (Bot.faqs st)) q) as [k|];
      cbn; auto.
    destruct (Py.truthy k); cbn; auto.
  - unfold Commands.set_faq_channel.
    destruct (Bot.admin_check OWNER_ID u); cbn; auto.
    destruct (Commands.mem ch (Bot.get_faq_channels (Bot.config st)));
      cbn; auto.
  - unfold Commands.disable_faq_channel.
    destruct (Bot.admin_check OWNER_ID u); cbn; auto.
    destruct (Commands.mem ch (Bot.get_faq_channels (Bot.config st)));
      cbn; auto.
  - unfold Bot.set_threshold.
    destruct (Bot.admin_check OWNER_ID u); cbn; auto.
    destruct (Qle_bool 0 v && Qle_bool v 1); cbn; auto.
Qed.

End Invariants.

Lemma commands_keep_state_ok_witness :
  state_ok
    (Session.steps an_owner_id fresh_state
       [Session.SetFaqChannel an_admin 7;
        Session.PrefixFaqAdd (Bot.mkContext true false) "hello" "Hi!";
        Session.SetThreshold an_admin (7 # 10)]).
Proof.
  apply (proj2 (commands_keep_state_ok an_owner_id)).
  exact (proj1 (commands_keep_state_ok an_owner_id)).
Defined.

(** ** Round trips *)

Section RoundTrips.

Variable OWNER_ID : Z.

Lemma delitem_last (d : Dict.t) (k v : string) :
  Dict.contains d k = false -> Dict.delitem (d ++ [(k, v)]) k = d.
Proof.
  induction d as [|[k' v'] d IH]; simpl.
  - intros _. now rewrite String.eqb_refl.
  - destruct (String.eqb k' k); [discriminate|].
    intros H. now rewrite IH.
Qed.

Lemma contains_app_last (d : Dict.t) (k v : string) :
  Dict.contains (d ++ [(k, v)]) k = true.
Proof.
  induction d as [|[k' v'] d IH]; simpl.
  - now rewrite String.eqb_refl.
  - destruct (String.eqb k' k); [reflexivity | exact IH].
Qed.

(** X5: adding a new question with [!faq_add] and removing it again with
    [!faq_remove] gives back the store as it was: same questions, same
    answers, same order, same configuration.  In between, the exact
    lookup finds the answer that was added. *)
Theorem add_then_remove (st : Bot.State) (ctx : Bot.Context)
    (question answer : string) :
  Bot.check_any ctx = true ->
  Dict.contains (Bot.faqs st) question = false ->
  let st1 := fst (Bot.prefix_faq_add st ctx question answer) in
  let st2 := fst (Bot.prefix_faq_remove st1 ctx question) in
  Dict.get (Bot.faqs st1) question = Some answer
  /\ snd (Bot.prefix_faq_remove st1 ctx question)
     = [Bot.SaveFaqs (Bot.faqs st); Bot.Send (Bot.Removed question)]
  /\ st2 = st.
Proof.
  intros Hok Hfresh.
  unfold Bot.prefix_faq_add. rewrite Hok, Hfresh. cbn [negb fst].
  rewrite (setitem_fresh _ _ answer Hfresh).
  unfold Bot.prefix_faq_remove, Bot.remove_body. rewrite Hok.
  cbn [negb Bot.with_faqs Bot.faqs Bot.config].
  rewrite contains_app_last, (delitem_last _ _ _ Hfresh). cbn [fst snd].
  split; [|split].
  - rewrite <- (setitem_fresh _ _ answer Hfresh). apply get_setitem_same.
  - reflexivity.
  - destruct st; reflexivity.
Qed.

(** X6: removing a question by its exact text makes the exact lookup
    miss afterwards, and touches no other entry: every other question
    keeps its answer. *)
Theorem remove_then_absent (st : Bot.State) (ctx : Bot.Context)
    (question : string) :
  Bot.check_any ctx = true ->
  Dict.wf (Bot.faqs st) ->
  Dict.contains (Bot.faqs st) question = true ->
  let st' := fst (Bot.prefix_faq_remove st ctx question) in
  Dict.get (Bot.faqs st') question = None
  /\ forall other,
       other <> question ->
       Dict.get (Bot.faqs st') other = Dict.get (Bot.faqs st) other.
Proof.
  intros Hok Hwf Hin.
  unfold Bot.prefix_faq_remove, Bot.remove_body. rewrite Hok, Hin.
  cbn [negb fst Bot.with_faqs Bot.faqs]. split.
  - pose proof (delitem_not_contains question Hwf) as H.
    destruct (Dict.get (Dict.delitem (Bot.faqs st) question) question)
      as [v|] eqn:E; [|reflexivity].
    assert (Dict.contains (Dict.delitem (Bot.faqs st) question) question
            = true) by (apply contains_get; eauto).
    congruence.
  - intros other Hne. clear Hwf Hin.
    induction (Bot.faqs st) as [|[k v] d IH]; simpl; [reflexivity|].
    destruct (String.eqb_spec k question) as [->|NE].
    + destruct (String.eqb_spec question other); [congruence | reflexivity].
    + simpl. now rewrite IH.
Qed.

End RoundTrips.

Lemma add_then_remove_witness :
  fst (Bot.prefix_faq_remove
         (fst (Bot.prefix_faq_add a_store (Bot.mkContext true false)
                 "Opening hours?" "9-5"))
         (Bot.mkContext true false) "Opening hours?")
  = a_store.
Proof.
  exact (proj2 (proj2 (add_then_remove a_store (Bot.mkContext true false)
                         "Opening hours?" "9-5" eq_refl eq_refl))).
Defined.

Lemma remove_then_absent_witness :
  Dict.get
    (Bot.faqs (fst (Bot.prefix_faq_remove a_store
                      (Bot.mkContext true false) "hello")))
    "hello" = None.
Proof.
  refine (proj1 (remove_then_absent a_store (Bot.mkContext true false)
                   "hello" eq_refl _ eq_refl)).
  repeat constructor. intros [].
Defined.

(** ** Channels *)

Section Channels.

Variable OWNER_ID : Z.

(** X7: once an administrator has set a channel, every message there
    that is neither from a bot nor a direct message is in the scope of the
    auto-reply, and no other channel changes its status; disabling the
    channel again restores the list of channels as it was, questions and
    threshold being untouched throughout. *)
Theorem set_then_disable_channel (st : Bot.State) (user : Bot.User)
    (channel : Z) :
  Bot.admin_check OWNER_ID user = true ->
  ~ In channel (Bot.get_faq_channels (Bot.config st)) ->
  let st1 := fst (Commands.set_faq_channel OWNER_ID st user channel) in
  let st2 := fst (Commands.disable_faq_channel OWNER_ID st1 user channel) in
  (forall m,
     Bot.user_bot (Bot.author m) = false ->
     Bot.in_guild m = true ->
     Bot.channel_id m = channel ->
     auto_reply_scope st1 m)
  /\ (forall other,
        other <> channel ->
        (In other (Bot.get_faq_channels (Bot.config st1))
         <-> In other (Bot.get_faq_channels (Bot.config st))))
  /\ Bot.get_faq_channels (Bot.config st2)
     = Bot.get_faq_channels (Bot.config st)
  /\ Bot.faqs st2 = Bot.faqs st
  /\ Bot.get_threshold (Bot.config st2) = Bot.get_threshold (Bot.config st).
Proof.
  intros Hok Hnew.
  assert (Hmem : Commands.mem channel (Bot.get_faq_channels (Bot.config st))
                 = false).
  { destruct (Commands.mem channel _) eqn:E; [|reflexivity].
    apply mem_In in E. contradiction. }
  unfold Commands.set_faq_channel. rewrite Hok, Hmem. cbn [negb fst].
  unfold Commands.disable_faq_channel. rewrite Hok. cbn [negb].
  assert (Hin : Commands.mem channel
                  (Bot.get_faq_channels
                     (Bot.config
                        (Commands.with_channels st
                           (Bot.get_faq_channels (Bot.config st)
                            ++ [channel])))) = true).
  { apply mem_In. cbn. apply in_or_app. right. left. reflexivity. }
  rewrite Hin. cbn [negb fst].
  split; [|split; [|split; [|split]]].
  - intros m Hbot Hguild Hch. repeat split; auto.
    cbn. apply in_or_app. right. left. auto.
  - intros other Hne. cbn. rewrite in_app_iff. simpl. intuition congruence.
  - cbn. now apply remove_first_last.
  - reflexivity.
  - reflexivity.
Qed.

(** X8: with every channel listed once, a disabled channel is no longer
    configured, so a guild message there from a non-bot goes to the
    command processor and gets no auto-reply. *)
Theorem disabled_channel_is_silent (st : Bot.State) (user : Bot.User)
    (channel : Z) (w : Bot.World) (m : Bot.Message) :
  Bot.admin_check OWNER_ID user = true ->
  NoDup (Bot.get_faq_channels (Bot.config st)) ->
  In channel (Bot.get_faq_channels (Bot.config st)) ->
  Bot.user_bot (Bot.author m) = false ->
  Bot.in_guild m = true ->
  Bot.channel_id m = channel ->
  let st' := fst (Commands.disable_faq_channel OWNER_ID st user channel) in
  ~ In channel (Bot.get_faq_channels (Bot.config st'))
  /\ Bot.on_message st' w m = Py.Ok [Bot.ProcessCommands].
Proof.
  intros Hok Hnd Hin Hbot Hguild Hch.
  unfold Commands.disable_faq_channel. rewrite Hok. cbn [negb].
  apply mem_In in Hin. rewrite Hin. cbn [negb fst].
  set (st' := Commands.with_channels st _).
  assert (Hgone : ~ In channel (Bot.get_faq_channels (Bot.config st')))
    by (cbn; now apply remove_first_gone).
  split; [exact Hgone|].
  assert (Hout : ~ auto_reply_scope st' m).
  { intros (_ & _ & H). rewrite Hch in H. contradiction. }
  destruct (on_message_out_of_scope w Hout) as [H | (H & _)]; [|exact H].
  exfalso. unfold Bot.on_message in H. rewrite Hbot, Hguild in H.
  cbn [negb] in H.
  destruct (Bot.get_faq_channels (Bot.config st')); [discriminate|].
  destruct (negb (existsb _ _)); [discriminate|].
  destruct (best_faq_match_total st' (Bot.content_or_empty m))
    as [[[key answer] score] Hr].
  rewrite Hr in H. cbn [Py.bind] in H.
  unfold Bot.reply_or_send in H.
  destruct (Py.truthy_opt key), (Bot.reply_forbidden w); discriminate.
Qed.

End Channels.

Lemma set_then_disable_channel_witness :
  Bot.get_faq_channels
    (Bot.config
       (fst (Commands.disable_faq_channel an_owner_id
               (fst (Commands.set_faq_channel an_owner_id a_store an_admin 9))
               an_admin 9)))
  = Bot.get_faq_channels (Bot.config a_store).
Proof.
  assert (Hnew : ~ In 9%Z (Bot.get_faq_channels (Bot.config a_store)))
    by (simpl; intros [H|[]]; discriminate).
  exact (proj1 (proj2 (proj2 (set_then_disable_channel an_owner_id a_store
                                an_admin 9 eq_refl Hnew)))).
Defined.

Lemma disabled_channel_is_silent_witness :
  let m := Bot.mkMessage a_member true 7 "hello" in
  Bot.on_message
    (fst (Commands.disable_faq_channel an_owner_id a_store an_admin 7))
    a_world m
  = Py.Ok [Bot.ProcessCommands].
Proof.
  intros m.
  assert (Hnd : NoDup (Bot.get_faq_channels (Bot.config a_store)))
    by (repeat constructor; intros []).
  assert (Hin : In 7%Z (Bot.get_faq_channels (Bot.config a_store)))
    by (left; reflexivity).
  exact (proj2 (disabled_channel_is_silent an_owner_id a_store an_admin 7
                  a_world m eq_refl Hnd Hin eq_refl eq_refl eq_refl)).
Defined.

(** ** Viewing and listing *)

Section Viewing.

Local Open Scope Q_scope.

(** X9: a view never raises and answers with one message.  A question
    that is a key gets its stored answer, as it is, whatever the
    threshold.  Any other question gets either "no match" or the closest
    key, which then is a non-empty key, the first of largest score, with
    a score at or above the threshold, shown with the answer stored under
    it. *)
Theorem faq_view_shows_stored_answers (st : Bot.State) (question : string) :
  exists e,
    Commands.faq_view st question = Py.Ok [e]
    /\ ((exists answer,
           Dict.get (Bot.faqs st) question = Some answer
           /\ e = Commands.Say (Commands.Exact answer))
        \/ (Dict.get (Bot.faqs st) question = None
            /\ (e = Commands.Say Commands.NoMatch
                \/ exists score key answer,
                     e = Commands.Say (Commands.Closest score key answer)
                     /\ key <> ""%string
                     /\ Dict.get (Bot.faqs st) key = Some answer
                     /\ first_maximal (Text.normalize_text question)
                          (Dict.keys (Bot.faqs st)) key
                     /\ score = Bot.score (Text.normalize_text question) key
                     /\ Bot.get_threshold (Bot.config st) <= score))).
Proof.
  unfold Commands.faq_view.
  destruct (Dict.contains (Bot.faqs st) question) eqn:Hin.
  - apply contains_get in Hin. destruct Hin as [answer Hget].
    rewrite Hget. eexists. split; [reflexivity|]. left. eauto.
  - assert (Hnone : Dict.get (Bot.faqs st) question = None).
    { destruct (Dict.get (Bot.faqs st) question) eqn:E; [|reflexivity].
      assert (Dict.contains (Bot.faqs st) question = true)
        by (apply contains_get; eauto). congruence. }
    destruct (best_faq_match_cases st question)
      as (s & _ & [(_ & Hthr & k & a & H & Hfm & Hs & Hget) | (_ & H)]);
      rewrite H; cbn [Py.bind Py.truthy_opt].
    + destruct k as [|c k]; cbn [Py.truthy].
      * eexists. split; [reflexivity|]. right. auto.
      * eexists. split; [reflexivity|]. right. split; [exact Hnone|].
        right. exists s, (String c k), a.
        repeat split; auto. discriminate.
    + eexists. split; [reflexivity|]. right. auto.
Qed.

End Viewing.

Section Listing.

Lemma length_join_lines (lines : list string) :
  lines <> [] ->
  String.length (Commands.join_lines lines) + 1
  = list_sum (map (fun l => String.length l + 1) lines).
Proof.
  induction lines as [|l ls IH]; [congruence|]. intros _.
  destruct ls as [|l' ls].
  - simpl. lia.
  - change (Commands.join_lines (l :: l' :: ls))
      with (l ++ Commands.newline ++ Commands.join_lines (l' :: ls))%string.
    rewrite !length_append.
    change (map (fun l0 => String.length l0 + 1) (l :: l' :: ls))
      with ((String.length l + 1)
            :: map (fun l0 => String.length l0 + 1) (l' :: ls)).
    change (list_sum ((String.length l + 1)
                      :: map (fun l0 => String.length l0 + 1) (l' :: ls)))
      with (String.length l + 1
            + list_sum (map (fun l0 => String.length l0 + 1) (l' :: ls))).
    rewrite <- IH by discriminate.
    change (String.length Commands.newline) with 1. lia.
Qed.

(** The listing has one character less than [listing_cost]. *)
Lemma length_display (keys : list string) :
  keys <> [] ->
  String.length (Commands.display keys) + 1 = listing_cost keys.
Proof.
  intros H. unfold Commands.display, listing_cost.
  rewrite length_join_lines by (destruct keys; [congruence | discriminate]).
  rewrite map_map. f_equal. apply map_ext. intros k.
  change ("- " ++ k)%string with (String "-" (String " " k)).
  simpl. lia.
Qed.

(** X10: listing.  An empty store is answered with "no FAQs".  Otherwise
    the keys are listed in store order and sent in the message exactly
    when the lengths of the keys plus three per key come to at most 1901;
    beyond that the listing is written to the export file, sent as a file
    and the file removed.  Both forms of the command decide alike, and
    the caller plays no part. *)
Theorem faq_list_inline_or_file (OWNER_ID : Z) (st : Bot.State)
    (user : Bot.User) :
  let keys := Dict.keys (Bot.faqs st) in
  let text := Commands.display keys in
  (Bot.faqs st = [] ->
     Commands.faq_list OWNER_ID st user = [Commands.Say Commands.NoFaqs]
     /\ Commands.prefix_faq_list st = [Commands.Say Commands.NoFaqs])
  /\ (Bot.faqs st <> [] -> listing_cost keys <= 1901 ->
      Commands.faq_list OWNER_ID st user
      = [Commands.Say (Commands.Listing text)]
      /\ Commands.prefix_faq_list st
         = [Commands.Say (Commands.Listing text)])
  /\ (Bot.faqs st <> [] -> 1901 < listing_cost keys ->
      Commands.faq_list OWNER_ID st user
      = [Commands.WriteExport text;
         Commands.SayWithExport Commands.ListingIsLong;
         Commands.RemoveExport]
      /\ Commands.prefix_faq_list st
         = [Commands.Say Commands.ListingIsLong;
            Commands.WriteExport text;
            Commands.SendExport;
            Commands.RemoveExport]).
Proof.
  intros keys text. unfold Commands.faq_list, Commands.prefix_faq_list.
  fold keys. fold text.
  destruct (Bot.faqs st) as [|e d] eqn:E.
  - repeat split; congruence.
  - assert (Hlen : String.length text + 1 = listing_cost keys).
    { apply length_display. unfold keys. rewrite ?E. discriminate. }
    unfold Commands.too_long.
    split; [congruence|]. split; intros _ Hc.
    + destruct (Nat.ltb_spec 1900 (String.length text)); [lia|].
      split; reflexivity.
    + destruct (Nat.ltb_spec 1900 (String.length text)); [|lia].
      split; reflexivity.
Qed.

End Listing.

Lemma faq_list_inline_or_file_witness :
  Commands.faq_list an_owner_id a_store a_member
  = [Commands.Say (Commands.Listing "- hello")].
Proof.
  assert (Hne : Bot.faqs a_store <> []) by discriminate.
  assert (Hc : listing_cost (Dict.keys (Bot.faqs a_store)) <= 1901)
    by (vm_compute; lia).
  exact (proj1 (proj1 (proj2 (faq_list_inline_or_file an_owner_id a_store
                                 a_member)) Hne Hc)).
Defined.

(** ** Saving and loading *)

Section SaveLoad.

Local Open Scope string_scope.

Variable J : Type.
Variable json_dumps : J -> string.
Variable json_read : string -> Py.result J.

(** [json.load] reads back what [json.dump] has written. *)
Hypothesis read_dumps : forall d, json_read (json_dumps d) = Py.Ok d.

(** X11: what [save_json] has written, [load_json] reads back: after
    saving a document under a path that is not a directory, loading that
    path yields the document (not the default) and leaves the file system
    as the save left it, all other paths being as before the save.  A
    directory under that name makes the save raise and nothing is
    written. *)
Theorem save_then_load (f : Storage.fs) (path : string) (data default : J) :
  (f path <> Some Storage.Dir ->
     let f1 := snd (Saving.save_json json_dumps f path data) in
     fst (Saving.save_json json_dumps f path data) = Py.Ok tt
     /\ Storage.load_json json_read f1 path default = (Py.Ok data, f1)
     /\ forall p, p <> path -> f1 p = f p)
  /\ (f path = Some Storage.Dir ->
      Saving.save_json json_dumps f path data
      = (Py.Raise Py.IsADirectoryError, f)).
Proof.
  unfold Saving.save_json. split.
  - intros Hfile.
    assert (E : (match f path with
                 | Some Storage.Dir => (Py.Raise Py.IsADirectoryError, f)
                 | _ => (Py.Ok tt,
                         Storage.update f path
                           (Some (Storage.File (json_dumps data))))
                 end)
                = (Py.Ok tt,
                   Storage.update f path
                     (Some (Storage.File (json_dumps data))))).
    { destruct (f path) as [[t|]|]; [reflexivity | congruence | reflexivity]. }
    rewrite E. cbn [fst snd]. split; [reflexivity|]. split.
    + unfold Storage.load_json, Storage.json_load, Storage.open_read,
        Storage.update.
      rewrite String.eqb_refl. cbn [Py.bind]. now rewrite read_dumps.
    + intros p Hp. unfold Storage.update.
      destruct (String.eqb_spec p path); [contradiction | reflexivity].
  - intros ->. reflexivity.
Qed.

End SaveLoad.

(** A document type that is its own text. *)
Lemma save_then_load_witness :
  Storage.load_json (fun data => Py.Ok data)
    (snd (Saving.save_json (fun d : string => d) damaged_fs "faqs.json"
            "{}"))
    "faqs.json" "default"
  = (Py.Ok "{}",
     snd (Saving.save_json (fun d : string => d) damaged_fs "faqs.json"
            "{}")).
Proof.
  assert (Hfile : damaged_fs "faqs.json" <> Some Storage.Dir) by discriminate.
  exact (proj1 (proj2 (proj1 (save_then_load string (fun d => d)
                                (fun data => Py.Ok data)
                                (fun d => eq_refl)
                                damaged_fs "faqs.json" "{}" "default")
                         Hfile))).
Defined.

(* ================================================================== *)
(** * Further properties of the text normaliser *)
(* ================================================================== *)

Section Normalise.

Import Text.

Lemma lower_char_idem (c : ascii) : lower_char (lower_char c) = lower_char c.
Proof.
  destruct c as [[] [] [] [] [] [] [] []]; vm_compute; reflexivity.
Qed.

Lemma is_space_lower_char (c : ascii) : is_space (lower_char c) = is_space c.
Proof.
  destruct c as [[] [] [] [] [] [] [] []]; vm_compute; reflexivity.
Qed.

Lemma lower_idem (s : list ascii) : lower (lower s) = lower s.
Proof.
  unfold lower. rewrite map_map. apply map_ext. apply lower_char_idem.
Qed.

(** Trailing white space adds no word. *)
Lemma split_from_spaces (sp : list ascii) :
  Forall (fun c => is_space c = true) sp ->
  forall s word, split_from (s ++ sp) word = split_from s word.
Proof.
  intros Hsp. induction s as [|c s IH]; intros word.
  - cbn [app]. revert word.
    induction Hsp as [|c sp Hc Hsp IH]; intros word; [reflexivity|].
    cbn [split_from]. rewrite Hc.
    destruct word; rewrite IH; reflexivity.
  - cbn [app split_from]. destruct (is_space c).
    + destruct word; now rewrite IH.
    + apply IH.
Qed.

Lemma lstrip_spaces (s : list ascii) :
  exists sp, Forall (fun c => is_space c = true) sp /\ s = sp ++ lstrip s.
Proof.
  induction s as [|c s (sp & Hsp & E)].
  - exists []. split; [constructor | reflexivity].
  - cbn [lstrip]. destruct (is_space c) eqn:Hc.
    + exists (c :: sp). split; [now constructor|].
      cbn [app]. now rewrite <- E.
    + exists []. split; [constructor | reflexivity].
Qed.

Lemma split_lstrip (s : list ascii) : split (lstrip s) = split s.
Proof.
  unfold split. induction s as [|c s IH]; [reflexivity|].
  cbn [lstrip split_from]. destruct (is_space c) eqn:Hc.
  - exact IH.
  - cbn [split_from]. now rewrite Hc.
Qed.

Lemma split_rstrip (s : list ascii) : split (rstrip s) = split s.
Proof.
  unfold rstrip. destruct (lstrip_spaces (rev s)) as (sp & Hsp & E).
  apply (f_equal (@rev ascii)) in E. rewrite rev_involutive, rev_app_distr in E.
  rewrite E at 2. unfold split. symmetry. apply split_from_spaces.
  apply Forall_rev. exact Hsp.
Qed.

(** [strip] before [split] changes nothing. *)
Lemma split_strip (s : list ascii) : split (strip s) = split s.
Proof. unfold strip. now rewrite split_rstrip, split_lstrip. Qed.

Lemma normalize_chars_words (s : list ascii) :
  normalize_chars s = join_space (split (lower s)).
Proof. unfold normalize_chars. now rewrite split_strip. Qed.

(** [split] yields words. *)
Lemma split_from_words (s : list ascii) :
  forall word,
    Forall (fun c => is_space c = false) word ->
    Forall is_word (split_from s word).
Proof.
  induction s as [|c s IH]; intros word Hw; cbn [split_from].
  - destruct word as [|c' word]; constructor; [|constructor].
    split.
    + intros H. apply (f_equal (@List.length ascii)) in H.
      rewrite length_rev in H. discriminate.
    + apply Forall_rev. exact Hw.
  - destruct (is_space c) eqn:Hc.
    + destruct word as [|c' word]; [apply IH; constructor|].
      constructor; [|apply IH; constructor].
      split.
      * intros H. apply (f_equal (@List.length ascii)) in H.
        rewrite length_rev in H. discriminate.
      * apply Forall_rev. exact Hw.
    + apply IH. now constructor.
Qed.

Lemma split_words (s : list ascii) : Forall is_word (split s).
Proof. apply split_from_words. constructor. Qed.

(** Reading a word moves it to the accumulator. *)
Lemma split_from_word (w : list ascii) :
  Forall (fun c => is_space c = false) w ->
  forall rest acc,
    split_from (w ++ rest) acc = split_from rest (rev w ++ acc).
Proof.
  induction 1 as [|c w Hc Hw IH]; intros rest acc; [reflexivity|].
  cbn [app split_from rev]. rewrite Hc, IH, <- app_assoc. reflexivity.
Qed.

(** Splitting what was joined gives the words back. *)
Lemma split_join_space (ws : list (list ascii)) :
  Forall is_word ws -> split (join_space ws) = ws.
Proof.
  unfold split. induction 1 as [|w ws [Hne Hw] Hws IH]; [reflexivity|].
  destruct ws as [|w' ws].
  - cbn [join_space]. rewrite <- (app_nil_r w) at 1.
    rewrite (split_from_word w Hw), app_nil_r. cbn [split_from].
    destruct (rev w) eqn:E.
    + apply (f_equal (@rev ascii)) in E. rewrite rev_involutive in E.
      contradiction.
    + rewrite <- E, rev_involutive. reflexivity.
  - change (join_space (w :: w' :: ws))
      with (w ++ " "%char :: join_space (w' :: ws)).
    rewrite (split_from_word w Hw), app_nil_r. cbn [split_from].
    change (is_space " ") with true. cbv iota.
    destruct (rev w) eqn:E.
    + apply (f_equal (@rev ascii)) in E. rewrite rev_involutive in E.
      contradiction.
    + rewrite <- E, rev_involutive, IH. reflexivity.
Qed.

Lemma split_from_lower (s : list ascii) :
  forall word,
    split_from (lower s) (lower word) = map lower (split_from s word).
Proof.
  unfold lower.
  induction s as [|c s IH]; intros word; cbn [map split_from].
  - destruct word as [|c' word]; cbn [map]; [reflexivity|].
    change (lower_char c' :: map lower_char word)
      with (map lower_char (c' :: word)).
    now rewrite <- map_rev.
  - rewrite is_space_lower_char. destruct (is_space c).
    + destruct word as [|c' word]; cbn [map].
      * exact (IH []).
      * change (lower_char c' :: map lower_char word)
          with (map lower_char (c' :: word)).
        rewrite <- map_rev. f_equal. exact (IH []).
    + exact (IH (c :: word)).
Qed.

Lemma lower_join_space (ws : list (list ascii)) :
  lower (join_space ws) = join_space (map lower ws).
Proof.
  unfold lower. induction ws as [|w ws IH]; [reflexivity|].
  destruct ws as [|w' ws]; [reflexivity|].
  change (join_space (w :: w' :: ws))
    with (w ++ " "%char :: join_space (w' :: ws)).
  rewrite map_app. cbn [map]. rewrite IH. reflexivity.
Qed.

(** The words of a lower-cased text are in lower case already. *)
Lemma lower_split_lower (s : list ascii) :
  map lower (split (lower s)) = split (lower s).
Proof.
  unfold split. rewrite <- (split_from_lower (lower s) []).
  now rewrite lower_idem.
Qed.

Lemma normalize_chars_idem (s : list ascii) :
  normalize_chars (normalize_chars s) = normalize_chars s.
Proof.
  rewrite !normalize_chars_words.
  rewrite lower_join_space, lower_split_lower.
  now rewrite (split_join_space _ (split_words (lower s))).
Qed.

(** X12: normalising twice is normalising once. *)
Theorem normalize_text_idempotent (s : string) :
  normalize_text (normalize_text s) = normalize_text s.
Proof.
  unfold normalize_text.
  now rewrite list_ascii_of_string_of_list_ascii, normalize_chars_idem.
Qed.

Lemma same_normal_form_same_words (a b : string) :
  normalize_text a = normalize_text b <-> words a = words b.
Proof.
  unfold words, normalize_text. rewrite !normalize_chars_words. split.
  - intros H.
    apply (f_equal list_ascii_of_string) in H.
    rewrite !list_ascii_of_string_of_list_ascii in H.
    apply (f_equal split) in H.
    now rewrite !split_join_space in H by apply split_words.
  - intros ->. reflexivity.
Qed.

(** X13: what the normal form keeps and what it forgets.  The normal
    form of a text is its lower-case words joined by single spaces, each
    word non-empty and free of white space; and two texts have the same
    normal form exactly when they have the same lower-case words, that is,
    when they differ in letter case and in the white space around and
    between the words only. *)
Theorem normalize_text_words (a b : string) :
  Forall is_word (words a)
  /\ normalize_text a = string_of_list_ascii (join_space (words a))
  /\ (normalize_text a = normalize_text b <-> words a = words b).
Proof.
  split; [apply split_words|].
  split; [|apply same_normal_form_same_words].
  unfold words, normalize_text. now rewrite normalize_chars_words.
Qed.

End Normalise.

(* ================================================================== *)
(** * Further properties of the score and the resolver *)
(* ================================================================== *)

Section ScoreBounds.

Import Difflib.

Variables a b : list ascii.
Variable b2j : b2j_t.

Lemma span_a_cons (alo ahi blo bhi : nat) (queue : list range_t) :
  span_a ((alo, ahi, blo, bhi) :: queue) = ahi - alo + span_a queue.
Proof. reflexivity. Qed.

Lemma span_b_cons (alo ahi blo bhi : nat) (queue : list range_t) :
  span_b ((alo, ahi, blo, bhi) :: queue) = bhi - blo + span_b queue.
Proof. reflexivity. Qed.

Lemma total_size_single (x : Match) : total_size [x] = m_size x.
Proof. unfold total_size. cbn [map list_sum fold_right]. lia. Qed.

(** The blocks found cannot hold more elements than the ranges they were
    searched in. *)
Lemma blocks_loop_total (fuel : nat) :
  forall queue blocks,
    Forall range_ok queue ->
    total_size (blocks_loop a b b2j fuel queue blocks)
    <= total_size blocks + span_a queue
    /\ total_size (blocks_loop a b b2j fuel queue blocks)
       <= total_size blocks + span_b queue.
Proof.
  induction fuel as [|fuel IH]; intros queue blocks Hok;
    cbn [blocks_loop]; [lia|].
  destruct queue as [|[[[alo ahi] blo] bhi] queue]; [lia|].
  inversion Hok as [|? ? Hr Hok']; subst. destruct Hr as [Ha Hb].
  pose proof (find_longest_match_bounds a b b2j alo ahi blo bhi Ha Hb)
    as (B1 & B2 & B3 & B4).
  set (x := find_longest_match a b b2j alo ahi blo bhi) in *.
  rewrite span_a_cons, span_b_cons.
  destruct (m_size x =? 0) eqn:Ek.
  - destruct (IH queue blocks Hok'). lia.
  - set (q1 := if (alo <? m_a x) && (blo <? m_b x)
               then (alo, m_a x, blo, m_b x) :: queue else queue).
    set (q2 := if (m_a x + m_size x <? ahi) && (m_b x + m_size x <? bhi)
               then (m_a x + m_size x, ahi, m_b x + m_size x, bhi) :: q1
               else q1).
    assert (Hq : Forall range_ok q2
                 /\ span_a q2 + m_size x <= ahi - alo + span_a queue
                 /\ span_b q2 + m_size x <= bhi - blo + span_b queue).
    { unfold q2, q1.
      destruct ((m_a x + m_size x <? ahi) && (m_b x + m_size x <? bhi));
        destruct ((alo <? m_a x) && (blo <? m_b x));
        rewrite ?span_a_cons, ?span_b_cons;
        (split; [repeat (constructor; [unfold range_ok; lia|]); exact Hok'
                | lia]). }
    destruct Hq as (Hq & Ha2 & Hb2).
    destruct (IH q2 (blocks ++ [x]) Hq) as [H1 H2].
    rewrite total_size_app, total_size_single in H1, H2.
    fold q1 q2. lia.
Qed.

End ScoreBounds.

Section ScoreRange.

Local Open Scope Q_scope.

Lemma calculate_ratio_range (matches length : nat) :
  (2 * matches <= length)%nat ->
  in_unit_interval (Difflib.calculate_ratio matches length).
Proof.
  intros H. unfold Difflib.calculate_ratio, in_unit_interval.
  destruct (Nat.eqb_spec length 0) as [E|NE].
  - split; discriminate.
  - rewrite Qred_correct. unfold Qle. cbn [Qnum Qden].
    rewrite <- (positive_nat_Z (Pos.of_nat length)), Nat2Pos.id by exact NE.
    split; lia.
Qed.

(** A score that amounts to [1.0] is [1.0]. *)
Lemma calculate_ratio_one (matches length : nat) :
  Difflib.calculate_ratio matches length == 1 ->
  Difflib.calculate_ratio matches length = 1.
Proof.
  unfold Difflib.calculate_ratio. destruct (length =? 0)%nat; [reflexivity|].
  intros H. rewrite Qred_correct in H.
  change 1 with (Qred 1). now apply Qred_complete.
Qed.

(** The matched elements are at most the elements of either sequence, so
    the score lies between [0.0] and [1.0]. *)
Lemma ratio_chars_range (a b : list ascii) :
  exists matches,
    (matches <= List.length a)%nat /\ (matches <= List.length b)%nat
    /\ Difflib.ratio_chars a b
       = Difflib.calculate_ratio matches (List.length a + List.length b)
    /\ in_unit_interval (Difflib.ratio_chars a b).
Proof.
  rewrite ratio_chars_total.
  destruct (blocks_loop_total a b (Difflib.chain_b b)
              (2 * List.length a + 1)
              [(0, List.length a, 0, List.length b)]%nat [])
    as [H1 H2].
  { constructor; [unfold range_ok; lia | constructor]. }
  rewrite span_a_cons in H1. rewrite span_b_cons in H2.
  unfold span_a, span_b, total_size in H1, H2.
  cbn [map list_sum fold_right] in H1, H2.
  eexists. split; [|split; [|split; [reflexivity|]]].
  - unfold total_size. lia.
  - unfold total_size. lia.
  - apply calculate_ratio_range. unfold total_size. lia.
Qed.

Lemma score_range (msg_norm key : string) :
  in_unit_interval (Bot.score msg_norm key).
Proof.
  unfold Bot.score, Difflib.ratio.
  destruct (ratio_chars_range (list_ascii_of_string msg_norm)
              (list_ascii_of_string (Text.normalize_text key)))
    as (_ & _ & _ & _ & H).
  exact H.
Qed.

Lemma score_one (msg_norm key : string) :
  Bot.score msg_norm key == 1 -> Bot.score msg_norm key = 1.
Proof.
  unfold Bot.score, Difflib.ratio.
  destruct (ratio_chars_range (list_ascii_of_string msg_norm)
              (list_ascii_of_string (Text.normalize_text key)))
    as (m & _ & _ & -> & _).
  apply calculate_ratio_one.
Qed.

(** A text scores [1.0] against itself, the empty text included. *)
Lemma ratio_self (s : string) : Difflib.ratio s s = 1.
Proof.
  destruct s as [|c s]; [reflexivity|].
  unfold Difflib.ratio. apply ratio_chars_identity. discriminate.
Qed.

(** X14: whatever the store, the configuration and the message, the score
    the resolver returns lies between [0.0] and [1.0]. *)
Theorem best_faq_match_score_range (st : Bot.State) (message : string)
    (key answer : option string) (s : Q) :
  Bot.best_faq_match st message = Py.Ok (key, answer, s) ->
  0 <= s /\ s <= 1.
Proof.
  intros Hres.
  destruct (best_faq_match_cases st message)
    as (s' & (_ & Hmax) & Hcase).
  assert (E : s = s').
  { destruct Hcase as [(_ & _ & k & a0 & H & _) | (_ & H)];
      rewrite H in Hres; congruence. }
  subst s'. destruct Hmax as [[-> _] | (_ & x & _ & ->)].
  - split; discriminate.
  - apply score_range.
Qed.

End ScoreRange.

Section ResolverMore.

Local Open Scope Q_scope.

(** With a key of the same normal form as the message in the store, the
    largest score is [1.0]. *)
Lemma known_question_max (msg_norm key : string) (keys : list string)
    (s : Q) :
  In key keys ->
  Text.normalize_text key = msg_norm ->
  is_max_score msg_norm keys s ->
  s = 1.
Proof.
  intros Hin Hnorm (Hub & Hmax).
  assert (Hkey : Bot.score msg_norm key = 1).
  { unfold Bot.score. rewrite Hnorm. apply ratio_self. }
  assert (Hge : 1 <= s) by (rewrite <- Hkey; now apply Hub).
  destruct Hmax as [[-> _] | (_ & x & _ & ->)].
  - exfalso. revert Hge. vm_compute. congruence.
  - apply score_one. apply Qle_antisym; [apply score_range | exact Hge].
Qed.

(** X15: a message that reads like a stored question, up to letter case
    and white space, is always matched when the threshold is at most
    [1.0]: the resolver returns a key of score exactly [1.0] (the first
    such key in store order) together with the answer stored under it. *)
Theorem same_normal_form_matches (st : Bot.State) (message key : string) :
  In key (Dict.keys (Bot.faqs st)) ->
  Text.normalize_text key = Text.normalize_text message ->
  Bot.get_threshold (Bot.config st) <= 1 ->
  exists k a,
    Bot.best_faq_match st message = Py.Ok (Some k, Some a, 1)
    /\ Dict.get (Bot.faqs st) k = Some a
    /\ Bot.score (Text.normalize_text message) k = 1
    /\ first_maximal (Text.normalize_text message)
         (Dict.keys (Bot.faqs st)) k.
Proof.
  intros Hin Hnorm Hthr.
  destruct (best_faq_match_cases st message) as (s & Hmax & Hcase).
  pose proof (known_question_max _ key _ s Hin Hnorm Hmax) as Hs. subst s.
  destruct Hcase as [(_ & _ & k & a & H & Hfm & Hs & Hget) | (Hnot & _)].
  - exists k, a. auto.
  - exfalso. apply Hnot. split; [reflexivity | exact Hthr].
Qed.

(** X16: lowering the threshold never loses a match.  With the same
    questions, whatever is matched under a threshold is matched, with the
    same key, answer and score, under any lower threshold. *)
Theorem lower_threshold_keeps_match (faqs : Dict.t) (c1 c2 : Bot.Config)
    (message key answer : string) (s : Q) :
  Bot.get_threshold c1 <= Bot.get_threshold c2 ->
  Bot.best_faq_match (Bot.mkState faqs c2) message
  = Py.Ok (Some key, Some answer, s) ->
  Bot.best_faq_match (Bot.mkState faqs c1) message
  = Py.Ok (Some key, Some answer, s).
Proof.
  unfold Bot.best_faq_match. cbn [Bot.faqs Bot.config].
  destruct (Bot.scan_keys (Text.normalize_text message) (Dict.keys faqs)
              None 0) as [[k|] best].
  - intros Hle.
    destruct (Py.geb best (Bot.get_threshold c2)) eqn:E2; [|discriminate].
    apply geb_true in E2.
    assert (E1 : Py.geb best (Bot.get_threshold c1) = true)
      by (apply geb_true; eapply Qle_trans; eassumption).
    rewrite E1. auto.
  - discriminate.
Qed.

(** X17: the resolver reads a message through its lower-case words only:
    two messages with the same words get the very same outcome. *)
Theorem best_faq_match_words (st : Bot.State) (m1 m2 : string) :
  words m1 = words m2 ->
  Bot.best_faq_match st m1 = Bot.best_faq_match st m2.
Proof.
  intros H. apply same_normal_form_same_words in H.
  unfold Bot.best_faq_match. now rewrite H.
Qed.

End ResolverMore.

Section HandlerMore.

(** X18: on a configured channel, a guild message from a non-bot that
    reads like a stored question, up to letter case and white space, is
    answered with a stored answer, not with a fallback, provided the
    threshold is at most [1.0] and no stored question is the empty
    string: the text sent is the answer of a key that scores [1.0]. *)
Theorem on_message_answers_known_question (st : Bot.State) (w : Bot.World)
    (m : Bot.Message) (key : string) :
  auto_reply_scope st m ->
  In key (Dict.keys (Bot.faqs st)) ->
  Text.normalize_text key = Text.normalize_text (Bot.content m) ->
  (Bot.get_threshold (Bot.config st) <= 1)%Q ->
  ~ In ""%string (Dict.keys (Bot.faqs st)) ->
  exists k a,
    Bot.on_message st w m = Py.Ok (Bot.reply_or_send w a)
    /\ Dict.get (Bot.faqs st) k = Some a
    /\ Bot.score (Text.normalize_text (Bot.content m)) k = 1%Q.
Proof.
  intros Hscope Hin Hnorm Hthr Hnoempty.
  destruct (best_faq_match_cases st (Bot.content m)) as (s & Hmax & Hcase).
  pose proof (known_question_max _ key _ s Hin Hnorm Hmax) as Hs. subst s.
  destruct Hcase as [(_ & _ & k & a & Hres & Hfm & Hscore & Hget) | (Hnot & _)];
    [|exfalso; apply Hnot; split; [reflexivity | exact Hthr]].
  exists k, a. split; [|split; [exact Hget | now symmetry]].
  assert (Hk : Py.truthy k = true).
  { destruct k; [|reflexivity].
    exfalso. apply Hnoempty. exact (first_maximal_In Hfm). }
  rewrite <- content_or_empty_id in Hres.
  rewrite (on_message_in_scope w Hscope), Hres.
  cbn [Py.bind Py.truthy_opt]. now rewrite Hk.
Qed.

End HandlerMore.

(** ** Examples *)

Section MoreExamples.

Local Open Scope string_scope.

Lemma best_faq_match_score_range_witness :
  (0 <= 1 /\ 1 <= 1)%Q.
Proof.
  apply (best_faq_match_score_range a_store "Hello"
           (Some "hello") (Some "Hi!") 1%Q).
  vm_compute. reflexivity.
Defined.

Lemma same_normal_form_matches_witness :
  exists k a,
    Bot.best_faq_match a_store "  HELLO " = Py.Ok (Some k, Some a, 1%Q)
    /\ Dict.get (Bot.faqs a_store) k = Some a
    /\ Bot.score (Text.normalize_text "  HELLO ") k = 1%Q
    /\ first_maximal (Text.normalize_text "  HELLO ")
         (Dict.keys (Bot.faqs a_store)) k.
Proof.
  apply (same_normal_form_matches a_store "  HELLO " "hello").
  - left. reflexivity.
  - reflexivity.
  - vm_compute. discriminate.
Defined.

Lemma lower_threshold_keeps_match_witness :
  Bot.best_faq_match
    (Bot.mkState [("hello", "Hi!")] (Bot.mkConfig None (Some (1 # 10)%Q)))
    "hallo"
  = Py.Ok (Some "hello", Some "Hi!", (4 # 5)%Q).
Proof.
  apply (lower_threshold_keeps_match [("hello", "Hi!")]
           (Bot.mkConfig None (Some (1 # 10)%Q)) a_config
           "hallo" "hello" "Hi!" (4 # 5)%Q).
  - vm_compute. discriminate.
  - vm_compute. reflexivity.
Defined.

Lemma best_faq_match_words_witness :
  Bot.best_faq_match a_store "Hello  there"
  = Bot.best_faq_match a_store " hello THERE ".
Proof.
  apply best_faq_match_words. reflexivity.
Defined.

Lemma on_message_answers_known_question_witness :
  exists k a,
    Bot.on_message a_store a_world (Bot.mkMessage a_member true 7 " HELLO")
    = Py.Ok (Bot.reply_or_send a_world a)
    /\ Dict.get (Bot.faqs a_store) k = Some a
    /\ Bot.score
         (Text.normalize_text
            (Bot.content (Bot.mkMessage a_member true 7 " HELLO"))) k
       = 1%Q.
Proof.
  apply (on_message_answers_known_question a_store a_world
           (Bot.mkMessage a_member true 7 " HELLO") "hello").
  - repeat split; simpl; auto.
  - left. reflexivity.
  - reflexivity.
  - vm_compute. discriminate.
  - simpl. intros [H|[]]. discriminate.
Defined.

End MoreExamples.
